(** * Virtual-Game-Simulator: resources, workers and the event queue

    A shallow embedding of [src/Project2/system.c] and
    [src/Project2/event.c].  C [int] values are integers of [Z] whose
    arithmetic wraps to 32 bits; a pointer to a [Resource] is an address in
    a finite map (the heap), [NULL] being [None]; a semaphore is its
    counter; the linked list of [EventNode]s is a list of events in
    [next] order. *)

From Stdlib Require Import ZArith List Lia Sorted Permutation.
From stdpp Require Import gmap strings list.

Local Open Scope Z_scope.

(** ** C [int] arithmetic *)

Definition INT_MIN : Z := -2147483648.
Definition INT_MAX : Z := 2147483647.

Definition int_range (z : Z) : Prop := INT_MIN <= z <= INT_MAX.

(** Two's complement reduction of a mathematical result to 32 bits. *)
Definition wrap_int (z : Z) : Z := (z + 2147483648) mod 4294967296 - 2147483648.

Definition int_add (a b : Z) : Z := wrap_int (a + b).
Definition int_sub (a b : Z) : Z := wrap_int (a - b).
Definition int_mul (a b : Z) : Z := wrap_int (a * b).
(** C division truncates toward zero. *)
Definition int_div (a b : Z) : Z := wrap_int (Z.quot a b).

(** The implicit conversion of an [int] argument to [useconds_t]. *)
Definition to_useconds (z : Z) : Z := z mod 4294967296.

(** ** Data model *)

(** Modelled from the spec: [defs.h] is not part of the sources; the status
    codes of an operation are the enumeration [Ok], [Empty],
    [Insufficient], [Capacity] of the specification. *)
Inductive StatusCode : Type :=
  | STATUS_OK
  | STATUS_EMPTY
  | STATUS_INSUFFICIENT
  | STATUS_CAPACITY.

Definition StatusCode_eqb (a b : StatusCode) : bool :=
  match a, b with
  | STATUS_OK, STATUS_OK
  | STATUS_EMPTY, STATUS_EMPTY
  | STATUS_INSUFFICIENT, STATUS_INSUFFICIENT
  | STATUS_CAPACITY, STATUS_CAPACITY => true
  | _, _ => false
  end.

(** Modelled from the spec: the rate and stop flag of a worker,
    [enum{STANDARD, SLOW, FAST, TERMINATE}], declared in the missing
    [defs.h]. *)
Inductive SystemStatus : Type :=
  | STANDARD
  | SLOW
  | FAST
  | TERMINATE.

(** Addresses of heap objects. *)
Definition ptr : Type := positive.

Record Resource : Type := mkResource {
  resource_name : string;
  amount : Z;
  max_capacity : Z;
  resource_mutex : Z   (* value of the semaphore *)
}.

Record ResourceAmount : Type := mkResourceAmount {
  ra_resource : option ptr;
  ra_amount : Z
}.

Record System : Type := mkSystem {
  system_name : string;
  consumed : ResourceAmount;
  produced : ResourceAmount;
  processing_time : Z;
  status : SystemStatus;
  amount_stored : Z;
  event_queue : option ptr
}.

Record Event : Type := mkEvent {
  ev_system : option ptr;
  ev_resource : option ptr;
  ev_status : StatusCode;
  ev_priority : Z;
  ev_amount : Z
}.

(** The queue: [head] is the chain of nodes reached through [next]. *)
Record EventQueue : Type := mkEventQueue {
  head : list Event;
  size : Z;
  eventQueue_mutex : Z   (* value of the semaphore *)
}.

Definition set_amount (r : Resource) (a : Z) : Resource :=
  {| resource_name := resource_name r; amount := a;
     max_capacity := max_capacity r; resource_mutex := resource_mutex r |}.

Definition set_resource_mutex (r : Resource) (v : Z) : Resource :=
  {| resource_name := resource_name r; amount := amount r;
     max_capacity := max_capacity r; resource_mutex := v |}.

Definition set_amount_stored (s : System) (a : Z) : System :=
  {| system_name := system_name s; consumed := consumed s;
     produced := produced s; processing_time := processing_time s;
     status := status s; amount_stored := a; event_queue := event_queue s |}.

(** ** Effects

    The functions of [system.c] read and write resources through pointers,
    wait on and post semaphores, and sleep.  A [World] is the heap of
    resources together with the log of the semaphore and sleep calls made
    so far; a computation returns, blocks for ever on a semaphore whose
    value is zero (no other thread is modelled), or faults on an invalid
    address. *)

Inductive Effect : Type :=
  | SemWait (p : ptr)
  | SemPost (p : ptr)
  | USleep (usec : Z).

Record World : Type := mkWorld {
  heap : gmap ptr Resource;
  trace : list Effect
}.

Inductive Outcome (S A : Type) : Type :=
  | Done (a : A) (s : S)
  | Blocked (s : S)
  | Fault.

Arguments Done {S A} a s.
Arguments Blocked {S A} s.
Arguments Fault {S A}.

Definition M (S A : Type) : Type := S -> Outcome S A.

Definition ret {S A} (a : A) : M S A := fun s => Done a s.

Definition bind {S A B} (m : M S A) (k : A -> M S B) : M S B :=
  fun s =>
    match m s with
    | Done a s' => k a s'
    | Blocked s' => Blocked s'
    | Fault => Fault
    end.

Declare Scope prog_scope.
Delimit Scope prog_scope with prog.
Notation "x <- m ;; k" := (bind m (fun x => k))
  (at level 100, m at next level, right associativity) : prog_scope.
Notation "m ;;; k" := (bind m (fun _ => k))
  (at level 100, right associativity) : prog_scope.
Local Open Scope prog_scope.

(** Reading [*p] and writing [*p = r]; [NULL] and dangling addresses fault. *)
Definition load (p : option ptr) : M World Resource := fun w =>
  match p with
  | None => Fault
  | Some a =>
      match heap w !! a with
      | Some r => Done r w
      | None => Fault
      end
  end.

Definition store (p : option ptr) (r : Resource) : M World unit := fun w =>
  match p with
  | None => Fault
  | Some a =>
      match heap w !! a with
      | Some _ => Done tt {| heap := <[a := r]> (heap w); trace := trace w |}
      | None => Fault
      end
  end.

Definition log (e : Effect) : M World unit := fun w =>
  Done tt {| heap := heap w; trace := trace w ++ [e] |}.

(** [sem_wait(&p->resource_mutex)]: the semaphore lives inside the
    resource, so the call reads memory at [p]. *)
Definition sem_wait (p : option ptr) : M World unit := fun w =>
  match p with
  | None => Fault
  | Some a =>
      match heap w !! a with
      | None => Fault
      | Some r =>
          if 0 <? resource_mutex r
          then Done tt {| heap := <[a := set_resource_mutex r (resource_mutex r - 1)]> (heap w);
                          trace := trace w ++ [SemWait a] |}
          else Blocked w
      end
  end.

(** [sem_post(&p->resource_mutex)]. *)
Definition sem_post (p : option ptr) : M World unit := fun w =>
  match p with
  | None => Fault
  | Some a =>
      match heap w !! a with
      | None => Fault
      | Some r =>
          Done tt {| heap := <[a := set_resource_mutex r (resource_mutex r + 1)]> (heap w);
                     trace := trace w ++ [SemPost a] |}
      end
  end.

Definition usleep (usec : Z) : M World unit := log (USleep (to_useconds usec)).

(** ** [system.c] *)

(** The consume step of [system_convert] (system.c, lines 139-144), as a
    function of the resource pointed to and of [amount_consumed]. *)
Definition try_consume (r : Resource) (amount_consumed : Z) : Resource * StatusCode :=
  if amount r >=? amount_consumed
  then (set_amount r (int_sub (amount r) amount_consumed), STATUS_OK)
  else (r, if amount r =? 0 then STATUS_EMPTY else STATUS_INSUFFICIENT).

(** [adjusted_processing_time] of [system_simulate_process_time]: the
    [switch] on the status (system.c, lines 174-183). *)
Definition adjusted_processing_time (system : System) : Z :=
  match status system with
  | SLOW => int_mul (processing_time system) 2
  | FAST => int_div (processing_time system) 2
  | _ => processing_time system
  end.

Definition system_simulate_process_time (system : System) : M World unit :=
  usleep (int_mul (adjusted_processing_time system) 1000).

Definition system_convert (system : System) : M World (System * StatusCode) :=
  let consumed_resource := ra_resource (consumed system) in
  let amount_consumed := ra_amount (consumed system) in
  sem_wait consumed_resource ;;;
  st <- match consumed_resource with
        | None => ret STATUS_OK
        | Some _ =>
            r <- load consumed_resource ;;
            let '(r', st) := try_consume r amount_consumed in
            store consumed_resource r' ;;;
            ret st
        end ;;
  system' <- (if StatusCode_eqb st STATUS_OK
              then
                system_simulate_process_time system ;;;
                match ra_resource (produced system) with
                | Some _ =>
                    ret (set_amount_stored system
                           (int_add (amount_stored system) (ra_amount (produced system))))
                | None => ret (set_amount_stored system 0)
                end
              else ret system) ;;
  sem_post consumed_resource ;;;
  ret (system', st).

(** The capacity computation of [system_store_resources] (system.c, lines
    214-224): the updated resource and the new [amount_stored]. *)
Definition try_store (r : Resource) (amount_to_store : Z) : Resource * Z :=
  let available_space := int_sub (max_capacity r) (amount r) in
  if available_space >=? amount_to_store
  then (set_amount r (int_add (amount r) amount_to_store), 0)
  else if available_space >? 0
  then (set_amount r (int_add (amount r) available_space),
        int_sub amount_to_store available_space)
  else (r, amount_to_store).

Definition system_store_resources (system : System) : M World (System * StatusCode) :=
  let produced_resource := ra_resource (produced system) in
  sem_wait produced_resource ;;;
  match produced_resource with
  | None => ret (set_amount_stored system 0, STATUS_OK)
  | Some _ =>
      if amount_stored system =? 0
      then ret (set_amount_stored system 0, STATUS_OK)
      else
        r <- load produced_resource ;;
        let '(r', leftover) := try_store r (amount_stored system) in
        store produced_resource r' ;;;
        let system' := set_amount_stored system leftover in
        if negb (leftover =? 0)
        then ret (system', STATUS_CAPACITY)
        else sem_post produced_resource ;;; ret (system', STATUS_OK)
  end.

(** ** [event.c] *)

Definition event_init (system resource : option ptr) (st : StatusCode)
    (priority amt : Z) : Event :=
  {| ev_system := system; ev_resource := resource; ev_status := st;
     ev_priority := priority; ev_amount := amt |}.

(** [event_queue_init] on a non-null queue writes [head] and the
    semaphore; the [size] field keeps whatever the memory of the queue
    held before. *)
Definition event_queue_init (queue : EventQueue) : EventQueue :=
  {| head := []; size := size queue; eventQueue_mutex := 1 |}.

Definition queue_sem_wait : M EventQueue unit := fun q =>
  if 0 <? eventQueue_mutex q
  then Done tt {| head := head q; size := size q;
                  eventQueue_mutex := eventQueue_mutex q - 1 |}
  else Blocked q.

Definition queue_sem_post : M EventQueue unit := fun q =>
  Done tt {| head := head q; size := size q;
             eventQueue_mutex := eventQueue_mutex q + 1 |}.

(** The loop of [event_queue_push]: [next] is the chain hanging off
    [curr->next]; the result is that chain with the node linked in. *)
Fixpoint insert_after (next : list Event) (event : Event) : list Event :=
  match next with
  | [] => [event]
  | n :: rest =>
      if ev_priority n >=? ev_priority event
      then n :: insert_after rest event
      else event :: next
  end.

(** Linking the new node into the chain that starts at [queue->head]. *)
Definition insert_node (hd : list Event) (event : Event) : list Event :=
  match hd with
  | [] => [event]
  | h :: next =>
      if ev_priority h <? ev_priority event
      then event :: hd
      else h :: insert_after next event
  end.

(** [malloc_ok] tells whether the allocation of the node succeeds. *)
Definition event_queue_push (malloc_ok : bool) (event : Event) : M EventQueue unit :=
  queue_sem_wait ;;;
  if malloc_ok
  then
    (fun q => Done tt {| head := insert_node (head q) event;
                         size := int_add (size q) 1;
                         eventQueue_mutex := eventQueue_mutex q |}) ;;;
    queue_sem_post
  else queue_sem_post.

(** [event] is the value behind the out-parameter before the call; the
    result pairs the returned [int] with the value behind it afterwards. *)
Definition event_queue_pop (event : Event) : M EventQueue (Z * Event) :=
  queue_sem_wait ;;;
  fun q =>
    match head q with
    | [] => (queue_sem_post ;;; ret (0, event)) q
    | e :: next =>
        (queue_sem_post ;;; ret (1, e))
          {| head := next; size := int_sub (size q) 1;
             eventQueue_mutex := eventQueue_mutex q |}
    end.

(** ** [system_run]

    One cycle of a worker.  The machine is the heap of resources together
    with the one event queue of the manager, to which the [event_queue]
    pointer of every worker refers. *)

Record Machine : Type := mkMachine {
  world : World;
  queue : EventQueue
}.

Definition lift_world {A} (m : M World A) : M Machine A := fun s =>
  match m (world s) with
  | Done a w => Done a {| world := w; queue := queue s |}
  | Blocked w => Blocked {| world := w; queue := queue s |}
  | Fault => Fault
  end.

Definition lift_queue {A} (m : M EventQueue A) : M Machine A := fun s =>
  match m (queue s) with
  | Done a q => Done a {| world := world s; queue := q |}
  | Blocked q => Blocked {| world := world s; queue := q |}
  | Fault => Fault
  end.

Section Worker.

(** The constants of the missing [defs.h]. *)
Variables PRIORITY_HIGH PRIORITY_LOW SYSTEM_WAIT_TIME : Z.

(** [event_queue_push(system->event_queue, &event)]. *)
Definition report (malloc_ok : bool) (system : System) (event : Event) : M Machine unit :=
  match event_queue system with
  | None => fun _ => Fault
  | Some _ => lift_queue (event_queue_push malloc_ok event)
  end.

(** [self] is the address of [system], recorded in the events it emits. *)
Definition system_run (malloc_ok : bool) (self : ptr) (system : System) : M Machine System :=
  system1 <-
    (if amount_stored system =? 0
     then
       res <- lift_world (system_convert system) ;;
       let '(system', result_status) := res in
       if negb (StatusCode_eqb result_status STATUS_OK)
       then
         r <- lift_world (load (ra_resource (consumed system'))) ;;
         report malloc_ok system'
           (event_init (Some self) (ra_resource (consumed system'))
              result_status PRIORITY_HIGH (amount r)) ;;;
         lift_world (usleep (int_mul SYSTEM_WAIT_TIME 1000)) ;;;
         ret system'
       else ret system'
     else ret system) ;;
  if amount_stored system1 >? 0
  then
    res <- lift_world (system_store_resources system1) ;;
    let '(system', result_status) := res in
    if negb (StatusCode_eqb result_status STATUS_OK)
    then
      r <- lift_world (load (ra_resource (produced system'))) ;;
      report malloc_ok system'
        (event_init (Some self) (ra_resource (produced system'))
           result_status PRIORITY_LOW (amount r)) ;;;
      lift_world (usleep (int_mul SYSTEM_WAIT_TIME 1000)) ;;;
      ret system'
    else ret system'
  else ret system1.

End Worker.

(** ** Sequences of calls *)

(** A call on a resource: the consume step with a requested amount, or the
    store step with an amount to store. *)
Inductive ResourceCall : Type :=
  | CallConsume (amount_consumed : Z)
  | CallStore (amount_to_store : Z).

Definition call_amount (c : ResourceCall) : Z :=
  match c with
  | CallConsume n => n
  | CallStore n => n
  end.

Definition apply_call (r : Resource) (c : ResourceCall) : Resource :=
  match c with
  | CallConsume n => fst (try_consume r n)
  | CallStore n => fst (try_store r n)
  end.

(** The resource as it is after each call of the sequence, in order. *)
Fixpoint run_calls (r : Resource) (calls : list ResourceCall) : list Resource :=
  match calls with
  | [] => []
  | c :: rest => let r' := apply_call r c in r' :: run_calls r' rest
  end.

Definition resource_inv (r : Resource) : Prop :=
  0 <= amount r <= max_capacity r.

(** An operation on the queue; the allocation of a pushed node succeeds. *)
Inductive QueueOp : Type :=
  | OpPush (event : Event)
  | OpPop.

(** Runs the operations in order and collects the events handed out by the
    pops that returned non-zero. *)
Fixpoint run_ops (ops : list QueueOp) (out : Event) : M EventQueue (list Event) :=
  match ops with
  | [] => ret []
  | OpPush e :: rest => event_queue_push true e ;;; run_ops rest out
  | OpPop :: rest =>
      res <- event_queue_pop out ;;
      popped <- run_ops rest (snd res) ;;
      ret (if fst res =? 0 then popped else snd res :: popped)
  end.

(** Pops until [event_queue_pop] returns zero (at most [fuel] times). *)
Fixpoint drain (fuel : nat) (out : Event) : M EventQueue (list Event) :=
  match fuel with
  | O => ret []
  | S fuel' =>
      res <- event_queue_pop out ;;
      if fst res =? 0 then ret []
      else rest <- drain fuel' (snd res) ;; ret (snd res :: rest)
  end.

Definition pushed (ops : list QueueOp) : list Event :=
  flat_map (fun o => match o with OpPush e => [e] | OpPop => [] end) ops.

Definition count_pops (ops : list QueueOp) : nat :=
  length (List.filter (fun o => match o with OpPop => true | OpPush _ => false end) ops).

(** Whether no pop of the sequence finds the queue empty, for a queue that
    holds [n] events at the start. *)
Fixpoint never_underflows (n : nat) (ops : list QueueOp) : bool :=
  match ops with
  | [] => true
  | OpPush _ :: rest => never_underflows (S n) rest
  | OpPop :: rest =>
      match n with
      | O => false
      | S n' => never_underflows n' rest
      end
  end.

Fixpoint take_while {A} (f : A -> bool) (l : list A) : list A :=
  match l with
  | [] => []
  | x :: l' => if f x then x :: take_while f l' else []
  end.

Fixpoint drop_while {A} (f : A -> bool) (l : list A) : list A :=
  match l with
  | [] => []
  | x :: l' => if f x then drop_while f l' else l
  end.

Definition has_priority (p : Z) (e : Event) : bool := ev_priority e =? p.

(** Non-increasing priorities from the front. *)
Definition priority_sorted (l : list Event) : Prop :=
  StronglySorted (fun a b => ev_priority a >= ev_priority b) l.

(** Whether a [usleep] is logged while some semaphore taken by [sem_wait]
    has not been posted yet; [held] lists the semaphores held so far. *)
Fixpoint sleeps_while_locked (held : list ptr) (t : list Effect) : bool :=
  match t with
  | [] => false
  | SemWait p :: t' => sleeps_while_locked (p :: held) t'
  | SemPost p :: t' => sleeps_while_locked (remove Pos.eq_dec p held) t'
  | USleep _ :: t' =>
      match held with
      | [] => sleeps_while_locked held t'
      | _ :: _ => true
      end
  end.

(** The effects logged by a call of [system_convert] that is not blocked. *)
Definition convert_trace (system : System) (p : ptr) (st : StatusCode) : list Effect :=
  if StatusCode_eqb st STATUS_OK
  then [SemWait p;
        USleep (to_useconds (int_mul (adjusted_processing_time system) 1000));
        SemPost p]
  else [SemWait p; SemPost p].

Definition convert_system (system : System) (st : StatusCode) : System :=
  if StatusCode_eqb st STATUS_OK
  then match ra_resource (produced system) with
       | Some _ => set_amount_stored system
                     (int_add (amount_stored system) (ra_amount (produced system)))
       | None => set_amount_stored system 0
       end
  else system.

(** Every resource of the heap is within its capacity, and the capacity
    is an [int]. *)
Definition heap_inv (w : World) : Prop :=
  forall p r, heap w !! p = Some r -> resource_inv r /\ int_range (max_capacity r).

(** What an outcome says about the state the call leaves behind. *)
Definition outcome_inv {S A} (P : S -> Prop) (o : Outcome S A) : Prop :=
  match o with
  | Done _ s' => P s'
  | Blocked s' => P s'
  | Fault => True
  end.

(** A computation that keeps [P], however it ends. *)
Definition preserves {S A} (P : S -> Prop) (m : M S A) : Prop :=
  forall s, P s -> outcome_inv P (m s).

(** Reduces the reads that follow a write to the same address. *)
Ltac run_heap := repeat (progress (simpl; rewrite ?lookup_insert_eq)).

(** ** Concrete data of [load_data] (main.c) used in examples *)

Definition fuel_addr : ptr := 1%positive.
Definition energy_addr : ptr := 3%positive.
Definition oxygen_addr : ptr := 2%positive.

Definition energy_full : Resource :=
  {| resource_name := "Energy"; amount := 50; max_capacity := 50; resource_mutex := 1 |}.

Definition fuel : Resource :=
  {| resource_name := "Fuel"; amount := 1000; max_capacity := 1000; resource_mutex := 1 |}.

Definition oxygen : Resource :=
  {| resource_name := "Oxygen"; amount := 20; max_capacity := 50; resource_mutex := 1 |}.

Definition crew_capsule_system : System :=
  {| system_name := "Crew";
     consumed := {| ra_resource := Some oxygen_addr; ra_amount := 1 |};
     produced := {| ra_resource := None; ra_amount := 0 |};
     processing_time := 2; status := STANDARD; amount_stored := 0;
     event_queue := None |}.

(** The generator holding ten units of energy it has produced. *)
Definition generator_holding : System :=
  {| system_name := "Generator";
     consumed := {| ra_resource := None; ra_amount := 0 |};
     produced := {| ra_resource := Some energy_addr; ra_amount := 10 |};
     processing_time := 20; status := STANDARD; amount_stored := 10;
     event_queue := None |}.

Definition queue_addr : ptr := 9%positive.
Definition generator_addr : ptr := 14%positive.

(** The generator of [load_data] entering its cycle with nothing stored. *)
Definition generator_system : System :=
  {| system_name := "Generator";
     consumed := {| ra_resource := Some fuel_addr; ra_amount := 5 |};
     produced := {| ra_resource := Some energy_addr; ra_amount := 10 |};
     processing_time := 20; status := STANDARD; amount_stored := 0;
     event_queue := Some queue_addr |}.

(** A worker that consumes nothing and produces energy. *)
Definition producer_only_system : System :=
  {| system_name := "Producer";
     consumed := {| ra_resource := None; ra_amount := 0 |};
     produced := {| ra_resource := Some energy_addr; ra_amount := 10 |};
     processing_time := 20; status := STANDARD; amount_stored := 0;
     event_queue := None |}.

(** A worker switched to [FAST] with an odd processing time. *)
Definition fast_odd_system : System :=
  {| system_name := "Crew";
     consumed := {| ra_resource := Some oxygen_addr; ra_amount := 1 |};
     produced := {| ra_resource := None; ra_amount := 0 |};
     processing_time := 5; status := FAST; amount_stored := 0;
     event_queue := None |}.

Definition sample_world : World :=
  {| heap := <[energy_addr := energy_full]>
               (<[oxygen_addr := oxygen]> (<[fuel_addr := fuel]> ∅));
     trace := [] |}.

Definition sample_event (priority : Z) (amt : Z) : Event :=
  event_init None None STATUS_CAPACITY priority amt.

Definition empty_queue : EventQueue :=
  event_queue_init {| head := []; size := 0; eventQueue_mutex := 0 |}.

(** ** Specifications of computations *)

(** Every value the computation returns satisfies [Q]. *)
Definition returns {S A} (Q : A -> Prop) (m : M S A) : Prop :=
  forall s a s', m s = Done a s' -> Q a.

(** The state the computation leaves behind, returning or blocked, is
    related by [R] to the state it started from. *)
Definition relates {S A} (R : S -> S -> Prop) (m : M S A) : Prop :=
  forall s, outcome_inv (R s) (m s).

(** [b] is [a] up to the field [amount_stored]. *)
Definition same_configuration (a b : System) : Prop :=
  b = set_amount_stored a (amount_stored b).

(** Between [w] and [w'] no resource appears or disappears, none changes
    its name or capacity, and those not pointed to by [ps] are untouched. *)
Definition touches_only (ps : list (option ptr)) (w w' : World) : Prop :=
  forall p,
    match heap w !! p, heap w' !! p with
    | Some r, Some r' =>
        resource_name r' = resource_name r
        /\ max_capacity r' = max_capacity r
        /\ (Some p ∉ ps -> r' = r)
    | None, None => True
    | _, _ => False
    end.

(** ** [event_queue_clean]

    On a non-null queue: the nodes are freed one by one, [head] and [size]
    are reset, and the semaphore is destroyed; its counter stays in memory
    as it was, and the semaphore has to be initialised again before it is
    used. *)
Definition event_queue_clean (queue : EventQueue) : EventQueue :=
  {| head := []; size := 0; eventQueue_mutex := eventQueue_mutex queue |}.

(** ** Creation and destruction ([resource.c], [system.c])

    The name of a resource or of a system is kept by value in its record:
    the block that [malloc] returns for the copy of the name is not a
    separate object of the heap, and freeing it is not a separate step.
    [resource_create] and [system_create] are called with the address of a
    pointer variable; their result is the value they leave in that
    variable. *)

(** [free(p)] for a resource: releasing memory that is not allocated is
    an invalid access. *)
Definition free_resource (p : ptr) : M World unit := fun w =>
  match heap w !! p with
  | Some _ => Done tt {| heap := delete p (heap w); trace := trace w |}
  | None => Fault
  end.


(** [malloc_resource] is the result of the first [malloc] ([None] for
    [NULL]), [junk] what the fresh block contains, [malloc_name] and
    [sem_init_ok] tell whether the second [malloc] and [sem_init]
    succeed. *)
Definition resource_create (malloc_resource : option ptr) (junk : Resource)
    (malloc_name sem_init_ok : bool) (name : string) (amt capacity : Z)
    : M World (option ptr) :=
  match malloc_resource with
  | None => fun _ => Fault      (* the name is stored through [NULL] *)
  | Some p =>
      (fun w => Done tt {| heap := <[p := junk]> (heap w); trace := trace w |}) ;;;
      if negb malloc_name
      then free_resource p ;;; ret None
      else
        r <- load (Some p) ;;
        store (Some p)
          {| resource_name := name; amount := amt; max_capacity := capacity;
             resource_mutex := resource_mutex r |} ;;;
        if sem_init_ok
        then
          r <- load (Some p) ;;
          store (Some p) (set_resource_mutex r 1) ;;;
          ret (Some p)
        else free_resource p ;;; ret None
  end.


Definition resource_amount_init (resource : option ptr) (amt : Z) : ResourceAmount :=
  {| ra_resource := resource; ra_amount := amt |}.

(** The heap of [System] objects. *)
Definition free_system (p : ptr) : M (gmap ptr System) unit := fun h =>
  match h !! p with
  | Some _ => Done tt (delete p h)
  | None => Fault
  end.

(** [malloc_system] is the result of the first [malloc], [junk] what the
    fresh block contains, and [malloc_name] tells whether the second
    [malloc] succeeds. *)
Definition system_create (malloc_system : option ptr) (junk : System)
    (malloc_name : bool) (name : string) (consumed_ra produced_ra : ResourceAmount)
    (processing : Z) (queue_ptr : option ptr)
    : M (gmap ptr System) (option ptr) :=
  match malloc_system with
  | None => ret None
  | Some p =>
      (fun h => Done tt (<[p := junk]> h)) ;;;
      if negb malloc_name
      then free_system p ;;; ret None
      else
        (fun h =>
           match h !! p with
           | Some _ =>
               Done tt
                 (<[p := {| system_name := name; consumed := consumed_ra;
                            produced := produced_ra; processing_time := processing;
                            status := STANDARD; amount_stored := 0;
                            event_queue := queue_ptr |}]> h)
           | None => Fault
           end) ;;;
        ret (Some p)
  end.

Definition system_destroy (system : option ptr) : M (gmap ptr System) unit :=
  match system with
  | Some p => free_system p
  | None => ret tt
  end.

(** ** The growable arrays

    [SystemArray] and [ResourceArray] have the same shape: a buffer of
    pointers ([systems], [resources]), [size] and [capacity]; the buffer is
    [None] for [NULL] and otherwise lists the slots of the block.  The
    functions [resource_array_init], [resource_array_add] and
    [resource_array_clean] of [resource.c] are, line by line, those of
    [system.c] with [resource_destroy] for [system_destroy]. *)
Record PointerArray : Type := mkPointerArray {
  slots : option (list (option ptr));
  array_size : Z;
  array_capacity : Z
}.

(** [calloc_ok] tells whether [calloc] succeeds; its block is zeroed. *)
Definition array_init (calloc_ok : bool) : PointerArray :=
  if calloc_ok
  then {| slots := Some [None]; array_size := 0; array_capacity := 1 |}
  else {| slots := None; array_size := 0; array_capacity := 0 |}.

(** The copy loop of [system_array_add], from index [i] for [n] more
    rounds: [new_system[i] = array->systems[i]].  Reading or writing
    outside a block is an invalid access. *)
Fixpoint copy_slots (n i : nat) (old new : list (option ptr))
    : option (list (option ptr)) :=
  match n with
  | O => Some new
  | S n' =>
      match old !! i with
      | Some x =>
          if decide (i < length new)%nat
          then copy_slots n' (S i) old (<[i := x]> new)
          else None
      | None => None
      end
  end.

(** [malloc_ok] tells whether [malloc] succeeds and [junk i] is what slot
    [i] of the fresh block contains.  The result is [None] when the call
    reads or writes outside a block or through [NULL]. *)
Definition array_add (malloc_ok : bool) (junk : nat -> option ptr)
    (array : PointerArray) (item : option ptr) : option PointerArray :=
  match item with
  | None => Some array
  | Some _ =>
      let grown :=
        if array_size array >=? array_capacity array
        then
          let new_capacity :=
            if array_capacity array =? 0 then 1 else int_mul (array_capacity array) 2 in
          if negb malloc_ok then Some (array, false)
          else
            let fresh := map junk (seq 0 (Z.to_nat new_capacity)) in
            let copied :=
              match Z.to_nat (array_size array) with
              | O => Some fresh
              | S _ as n =>
                  match slots array with
                  | Some old => copy_slots n 0 old fresh
                  | None => None
                  end
              end in
            match copied with
            | Some new =>
                Some ({| slots := Some new; array_size := array_size array;
                         array_capacity := new_capacity |}, true)
            | None => None
            end
        else Some (array, true) in
      match grown with
      | None => None
      | Some (a, false) => Some a         (* [return] after the failed malloc *)
      | Some (a, true) =>
          match slots a with
          | None => None
          | Some buf =>
              if (0 <=? array_size a) && (array_size a <? Z.of_nat (length buf))
              then Some {| slots := Some (<[Z.to_nat (array_size a) := item]> buf);
                           array_size := int_add (array_size a) 1;
                           array_capacity := array_capacity a |}
              else None
          end
      end
  end.

Definition system_array_init := array_init.
Definition system_array_add := array_add.
Definition resource_array_init := array_init.
Definition resource_array_add := array_add.

(** The loop of [system_array_clean], from index [i] for [n] more rounds. *)
Fixpoint destroy_slots {St} (destroy : option ptr -> M St unit) (n i : nat)
    (buf : list (option ptr)) : M St unit :=
  match n with
  | O => ret tt
  | S n' =>
      match buf !! i with
      | None => fun _ => Fault
      | Some None => destroy_slots destroy n' (S i) buf
      | Some (Some p) => destroy (Some p) ;;; destroy_slots destroy n' (S i) buf
      end
  end.

Definition array_clean {St} (destroy : option ptr -> M St unit)
    (array : PointerArray) : M St PointerArray :=
  match slots array with
  | None => ret array
  | Some buf =>
      destroy_slots destroy (Z.to_nat (array_size array)) 0 buf ;;;
      ret {| slots := None; array_size := 0; array_capacity := 1 |}
  end.

Definition system_array_clean : PointerArray -> M (gmap ptr System) PointerArray :=
  array_clean system_destroy.


(** The meaningful part of the buffer: its first [size] slots. *)
Definition elements (array : PointerArray) : list (option ptr) :=
  match slots array with
  | Some buf => take (Z.to_nat (array_size array)) buf
  | None => []
  end.

(** The buffer has [capacity] slots of which [size] are in use; or there
    is no buffer and the capacity is zero. *)
Definition array_wf (array : PointerArray) : Prop :=
  match slots array with
  | Some buf =>
      Z.of_nat (length buf) = array_capacity array
      /\ 0 <= array_size array <= array_capacity array
  | None => array_size array = 0 /\ array_capacity array = 0
  end.

(** Adds the items in order, every allocation succeeding. *)
Fixpoint add_all (junk : nat -> option ptr) (array : PointerArray)
    (items : list ptr) : option PointerArray :=
  match items with
  | [] => Some array
  | x :: rest =>
      match array_add true junk array (Some x) with
      | Some array' => add_all junk array' rest
      | None => None
      end
  end.

(** ** [system_thread]

    The loop runs until it reads [TERMINATE] in the status of the system;
    [fuel] bounds the number of rounds looked at, and the result is [None]
    when the loop is still running after them. *)
Fixpoint system_thread (PRIORITY_HIGH PRIORITY_LOW SYSTEM_WAIT_TIME : Z)
    (malloc_ok : bool) (fuel : nat) (self : ptr) (system : System)
    : M Machine (option System) :=
  match fuel with
  | O => ret None
  | S fuel' =>
      match status system with
      | TERMINATE => ret (Some system)
      | _ =>
          system' <- system_run PRIORITY_HIGH PRIORITY_LOW SYSTEM_WAIT_TIME
                       malloc_ok self system ;;
          system_thread PRIORITY_HIGH PRIORITY_LOW SYSTEM_WAIT_TIME
            malloc_ok fuel' self system'
      end
  end.

(** A worker that has been told to stop. *)
Definition terminated_system : System :=
  {| system_name := "Crew";
     consumed := {| ra_resource := Some oxygen_addr; ra_amount := 1 |};
     produced := {| ra_resource := None; ra_amount := 0 |};
     processing_time := 2; status := TERMINATE; amount_stored := 0;
     event_queue := Some queue_addr |}.

Definition distance_addr : ptr := 4%positive.

Definition sample_machine : Machine :=
  {| world := sample_world; queue := empty_queue |}.

(** The capacity is no more than the doubling rule needs. *)
Definition array_tight (array : PointerArray) : Prop :=
  array_capacity array <= Z.max 1 (2 * array_size array - 2).

Definition energy : Resource :=
  {| resource_name := "Energy"; amount := 30; max_capacity := 50; resource_mutex := 1 |}.

(** The resources as [load_data] creates them. *)
Definition initial_world : World :=
  {| heap := <[energy_addr := energy]>
               (<[oxygen_addr := oxygen]> (<[fuel_addr := fuel]> ∅));
     trace := [] |}.

Definition initial_machine : Machine :=
  {| world := initial_world; queue := empty_queue |}.

(** A worker that asks for more oxygen than there is. *)
Definition greedy_system : System :=
  {| system_name := "Greedy";
     consumed := {| ra_resource := Some oxygen_addr; ra_amount := 25 |};
     produced := {| ra_resource := None; ra_amount := 0 |};
     processing_time := 2; status := STANDARD; amount_stored := 0;
     event_queue := Some queue_addr |}.

(** Slots of a fresh block before they are written. *)
Definition sample_junk (i : nat) : option ptr := Some 99%positive.

Definition sample_systems : gmap ptr System :=
  <[14%positive := generator_system]> (<[15%positive := crew_capsule_system]> ∅).

Definition sample_array : PointerArray :=
  {| slots := Some [Some 14%positive; Some 15%positive];
     array_size := 2; array_capacity := 2 |}.

(** An array in which the same system was added twice. *)
Definition doubled_array : PointerArray :=
  {| slots := Some [Some 14%positive; Some 14%positive];
     array_size := 2; array_capacity := 2 |}.


(** The life support of [load_data]: it consumes energy. *)
Definition life_support_system : System :=
  {| system_name := "Life Support";
     consumed := {| ra_resource := Some energy_addr; ra_amount := 7 |};
     produced := {| ra_resource := Some oxygen_addr; ra_amount := 4 |};
     processing_time := 10; status := STANDARD; amount_stored := 0;
     event_queue := Some queue_addr |}.


(** * Properties *)

(** ** Arithmetic of [int] *)

Lemma wrap_int_id (z : Z) : int_range z -> wrap_int z = z.
Proof.
  unfold int_range, INT_MIN, INT_MAX, wrap_int. intros H.
  rewrite Z.mod_small; lia.
Qed.

Lemma wrap_int_range (z : Z) : int_range (wrap_int z).
Proof.
  unfold int_range, INT_MIN, INT_MAX, wrap_int.
  pose proof (Z.mod_pos_bound (z + 2147483648) 4294967296). lia.
Qed.

Lemma int_sub_exact (a b : Z) : int_range (a - b) -> int_sub a b = a - b.
Proof. apply wrap_int_id. Qed.

Lemma int_add_exact (a b : Z) : int_range (a + b) -> int_add a b = a + b.
Proof. apply wrap_int_id. Qed.

(** ** The two steps on one resource *)

Lemma try_consume_max_capacity (r : Resource) (n : Z) :
  max_capacity (fst (try_consume r n)) = max_capacity r.
Proof. unfold try_consume. destruct (amount r >=? n); reflexivity. Qed.

Lemma try_store_max_capacity (r : Resource) (n : Z) :
  max_capacity (fst (try_store r n)) = max_capacity r.
Proof.
  unfold try_store.
  destruct (_ >=? n); [reflexivity|]. destruct (_ >? 0); reflexivity.
Qed.

Lemma try_consume_inv (r : Resource) (n : Z) :
  resource_inv r -> int_range (max_capacity r) -> 0 <= n ->
  resource_inv (fst (try_consume r n)).
Proof.
  unfold resource_inv, try_consume, int_range, INT_MIN, INT_MAX.
  intros Hr Hmax Hn.
  destruct (Z.geb_spec (amount r) n) as [Hge|Hlt]; simpl; [|exact Hr].
  rewrite int_sub_exact; [lia|].
  unfold int_range, INT_MIN, INT_MAX. lia.
Qed.

Lemma try_store_inv (r : Resource) (n : Z) :
  resource_inv r -> int_range (max_capacity r) -> 0 <= n ->
  resource_inv (fst (try_store r n)).
Proof.
  unfold resource_inv, try_store, int_range, INT_MIN, INT_MAX.
  intros Hr Hmax Hn.
  assert (Hspace : int_sub (max_capacity r) (amount r) = max_capacity r - amount r).
  { apply int_sub_exact. unfold int_range, INT_MIN, INT_MAX. lia. }
  rewrite Hspace.
  destruct (Z.geb_spec (max_capacity r - amount r) n) as [Hall|Hpart]; simpl.
  - rewrite int_add_exact; [lia|]. unfold int_range, INT_MIN, INT_MAX. lia.
  - destruct (Z.gtb_spec (max_capacity r - amount r) 0) as [Hpos|Hfull]; simpl.
    + rewrite int_add_exact; [lia|]. unfold int_range, INT_MIN, INT_MAX. lia.
    + exact Hr.
Qed.

Lemma apply_call_inv (r : Resource) (c : ResourceCall) :
  resource_inv r -> int_range (max_capacity r) -> 0 <= call_amount c ->
  resource_inv (apply_call r c) /\ max_capacity (apply_call r c) = max_capacity r.
Proof.
  intros Hr Hmax Hc. destruct c as [n|n]; simpl in *.
  - split; [apply try_consume_inv; assumption | apply try_consume_max_capacity].
  - split; [apply try_store_inv; assumption | apply try_store_max_capacity].
Qed.

(** C1. Capacity invariant: starting from a resource with
    [0 <= amount <= max_capacity] (the capacity being an [int]), after
    every call of any sequence of consume and store steps with non-negative
    amounts the resource again satisfies [0 <= amount <= max_capacity]. *)
Theorem capacity_invariant (calls : list ResourceCall) (r : Resource) :
  resource_inv r ->
  int_range (max_capacity r) ->
  Forall (fun c => 0 <= call_amount c) calls ->
  Forall resource_inv (run_calls r calls).
Proof.
  revert r. induction calls as [|c calls IH]; intros r Hr Hmax Hcalls; simpl.
  - constructor.
  - inversion Hcalls as [|c' calls' Hc Hrest]; subst.
    destruct (apply_call_inv r c Hr Hmax Hc) as [Hr' Hmax'].
    constructor; [exact Hr'|].
    apply IH; [exact Hr' | rewrite Hmax'; exact Hmax | exact Hrest].
Qed.

Lemma capacity_invariant_witness :
  Forall resource_inv
    (run_calls oxygen [CallStore 4; CallConsume 1; CallStore 40; CallConsume 60]).
Proof.
  apply (capacity_invariant _ oxygen).
  - unfold resource_inv; simpl; lia.
  - unfold int_range, INT_MIN, INT_MAX; simpl; lia.
  - repeat constructor; simpl; lia.
Defined.

(** ** What the two functions of [system.c] do to the world *)

Lemma mutex_restored (r : Resource) (a : Z) :
  set_resource_mutex
    (set_amount (set_resource_mutex r (resource_mutex r - 1)) a)
    (resource_mutex r - 1 + 1) = set_amount r a.
Proof.
  destruct r as [nm am mx mu]. unfold set_resource_mutex, set_amount; simpl.
  f_equal. lia.
Qed.

Lemma mutex_restored' (r : Resource) :
  set_resource_mutex (set_resource_mutex r (resource_mutex r - 1))
    (resource_mutex r - 1 + 1) = r.
Proof.
  destruct r as [nm am mx mu]. unfold set_resource_mutex; simpl.
  f_equal. lia.
Qed.

Lemma system_convert_run (system : System) (w : World) (p : ptr) (r : Resource) :
  ra_resource (consumed system) = Some p ->
  heap w !! p = Some r ->
  0 < resource_mutex r ->
  let res := try_consume r (ra_amount (consumed system)) in
  system_convert system w =
    Done (convert_system system (snd res), snd res)
         {| heap := <[p := fst res]> (heap w);
            trace := trace w ++ convert_trace system p (snd res) |}.
Proof.
  intros Hp Hr Hm. cbv zeta.
  unfold system_convert, bind, sem_wait, load, store, ret,
    system_simulate_process_time, usleep, log, sem_post, try_consume,
    convert_system, convert_trace.
  rewrite Hp, Hr.
  destruct (Z.ltb_spec 0 (resource_mutex r)) as [_|Hno]; [|lia].
  simpl. rewrite lookup_insert_eq. simpl.
  destruct (amount r >=? ra_amount (consumed system)); simpl;
    rewrite ?lookup_insert_eq; simpl.
  - destruct (ra_resource (produced system)); simpl;
      rewrite ?lookup_insert_eq; simpl;
      rewrite !insert_insert_eq, mutex_restored, <- !app_assoc; reflexivity.
  - destruct (amount r =? 0); simpl; rewrite ?lookup_insert_eq; simpl;
      rewrite !insert_insert_eq, mutex_restored', <- !app_assoc; reflexivity.
Qed.

(** A resource whose semaphore is at zero blocks the caller. *)
Lemma system_convert_blocked (system : System) (w : World) (p : ptr) (r : Resource) :
  ra_resource (consumed system) = Some p ->
  heap w !! p = Some r ->
  resource_mutex r <= 0 ->
  system_convert system w = Blocked w.
Proof.
  intros Hp Hr Hm. unfold system_convert, bind, sem_wait.
  rewrite Hp, Hr. destruct (Z.ltb_spec 0 (resource_mutex r)); [lia|reflexivity].
Qed.

Lemma system_store_resources_nothing (system : System) (w : World) (p : ptr) (r : Resource) :
  ra_resource (produced system) = Some p ->
  heap w !! p = Some r ->
  0 < resource_mutex r ->
  amount_stored system = 0 ->
  system_store_resources system w =
    Done (set_amount_stored system 0, STATUS_OK)
         {| heap := <[p := set_resource_mutex r (resource_mutex r - 1)]> (heap w);
            trace := trace w ++ [SemWait p] |}.
Proof.
  intros Hp Hr Hm H0.
  unfold system_store_resources, bind, sem_wait, ret. rewrite Hp, Hr, H0.
  destruct (Z.ltb_spec 0 (resource_mutex r)) as [_|Hno]; [|lia].
  reflexivity.
Qed.

Lemma system_store_resources_run (system : System) (w : World) (p : ptr) (r : Resource) :
  ra_resource (produced system) = Some p ->
  heap w !! p = Some r ->
  0 < resource_mutex r ->
  amount_stored system <> 0 ->
  let res := try_store r (amount_stored system) in
  system_store_resources system w =
    if snd res =? 0
    then Done (set_amount_stored system (snd res), STATUS_OK)
              {| heap := <[p := fst res]> (heap w);
                 trace := trace w ++ [SemWait p; SemPost p] |}
    else Done (set_amount_stored system (snd res), STATUS_CAPACITY)
              {| heap := <[p := set_resource_mutex (fst res) (resource_mutex r - 1)]> (heap w);
                 trace := trace w ++ [SemWait p] |}.
Proof.
  intros Hp Hr Hm Hne. cbv zeta.
  unfold system_store_resources, bind, sem_wait, load, store, ret, sem_post, try_store.
  rewrite Hp, Hr.
  destruct (Z.ltb_spec 0 (resource_mutex r)) as [_|Hno]; [|lia].
  destruct (Z.eqb_spec (amount_stored system) 0) as [H0|_]; [contradiction|].
  run_heap.
  destruct (_ >=? amount_stored system); run_heap.
  - rewrite !insert_insert_eq, mutex_restored, <- !app_assoc; reflexivity.
  - destruct (_ >? 0); run_heap.
    + destruct (int_sub (amount_stored system) _ =? 0); run_heap;
        rewrite !insert_insert_eq;
        [rewrite mutex_restored, <- !app_assoc|]; reflexivity.
    + destruct (Z.eqb_spec (amount_stored system) 0) as [H0|_]; [contradiction|].
      run_heap. rewrite !insert_insert_eq. reflexivity.
Qed.

Lemma system_store_resources_blocked (system : System) (w : World) (p : ptr) (r : Resource) :
  ra_resource (produced system) = Some p ->
  heap w !! p = Some r ->
  resource_mutex r <= 0 ->
  system_store_resources system w = Blocked w.
Proof.
  intros Hp Hr Hm. unfold system_store_resources, bind, sem_wait.
  rewrite Hp, Hr. destruct (Z.ltb_spec 0 (resource_mutex r)); [lia|reflexivity].
Qed.

(** C2. The consume step of [system_convert] on a resource [r] whose
    semaphore is free: when the requested amount is at most [amount r] the
    resource is decremented by the whole request (an [int] subtraction,
    exact whenever the difference is an [int]) and the status is
    [STATUS_OK]; otherwise the status is [STATUS_EMPTY] when [amount r] is
    zero and [STATUS_INSUFFICIENT] when it is not, and neither the heap nor
    the worker changes. *)
Theorem system_convert_consume (system : System) (w : World) (p : ptr) (r : Resource) :
  ra_resource (consumed system) = Some p ->
  heap w !! p = Some r ->
  0 < resource_mutex r ->
  let req := ra_amount (consumed system) in
  exists system' st w',
    system_convert system w = Done (system', st) w'
    /\ (req <= amount r ->
        st = STATUS_OK
        /\ heap w' = <[p := set_amount r (int_sub (amount r) req)]> (heap w)
        /\ (amount r - req <= INT_MAX ->
            heap w' !! p = Some (set_amount r (amount r - req))))
    /\ (amount r < req ->
        st = (if amount r =? 0 then STATUS_EMPTY else STATUS_INSUFFICIENT)
        /\ heap w' = heap w
        /\ system' = system).
Proof.
  intros Hp Hr Hm req.
  pose proof (system_convert_run system w p r Hp Hr Hm) as Hrun.
  cbv zeta in Hrun. fold req in Hrun.
  eexists _, _, _. split; [exact Hrun|].
  unfold try_consume. simpl heap.
  destruct (Z.geb_spec (amount r) req) as [Hge|Hlt]; simpl.
  - split; [|lia]. intros _. repeat split.
    intros Hmax. rewrite lookup_insert_eq, int_sub_exact; [reflexivity|].
    unfold int_range, INT_MIN, INT_MAX in *. lia.
  - split; [lia|]. intros _. repeat split.
    + apply insert_id. exact Hr.
    + unfold convert_system. destruct (amount r =? 0); reflexivity.
Qed.

Lemma system_convert_consume_witness :
  exists system' st w',
    system_convert crew_capsule_system sample_world = Done (system', st) w'
    /\ heap w' !! oxygen_addr = Some (set_amount oxygen 19).
Proof.
  destruct (system_convert_consume crew_capsule_system sample_world oxygen_addr oxygen)
    as (system' & st & w' & Hrun & Hok & _).
  - reflexivity.
  - reflexivity.
  - simpl. lia.
  - exists system', st, w'. split; [exact Hrun|].
    destruct Hok as (_ & _ & Hexact); [simpl; lia|].
    apply Hexact. unfold INT_MAX. simpl. lia.
Defined.

(** C3. [system_store_resources] on a resource [r] within its capacity
    whose semaphore is free, with [space = max_capacity r - amount r] and
    [amt] the amount held by the worker: if [space >= amt] all of [amt] is
    added, nothing is left over and the status is [STATUS_OK]; if
    [0 < space < amt] exactly [space] is added, the resource is at
    [max_capacity], and the worker keeps [amt - space] in [amount_stored];
    if [space = 0 < amt] nothing is stored and the worker keeps [amt]; the
    status of the last two cases is [STATUS_CAPACITY].  No other resource
    changes. *)
Theorem system_store_resources_cases (system : System) (w : World) (p : ptr) (r : Resource) :
  ra_resource (produced system) = Some p ->
  heap w !! p = Some r ->
  0 < resource_mutex r ->
  resource_inv r ->
  int_range (max_capacity r) ->
  int_range (amount_stored system) ->
  let amt := amount_stored system in
  let space := max_capacity r - amount r in
  exists system' st w' r',
    system_store_resources system w = Done (system', st) w'
    /\ heap w' !! p = Some r'
    /\ max_capacity r' = max_capacity r
    /\ (forall p', p' <> p -> heap w' !! p' = heap w !! p')
    /\ (space >= amt ->
        amount r' = amount r + amt /\ amount_stored system' = 0 /\ st = STATUS_OK)
    /\ (0 < space < amt ->
        amount r' = amount r + space /\ amount r' = max_capacity r
        /\ amount_stored system' = amt - space /\ st = STATUS_CAPACITY)
    /\ (space = 0 -> 0 < amt ->
        amount r' = amount r /\ amount_stored system' = amt /\ st = STATUS_CAPACITY).
Proof.
  intros Hp Hr Hm Hinv Hmax Hamt amt space.
  unfold resource_inv, int_range, INT_MIN, INT_MAX in *.
  destruct (Z.eq_dec amt 0) as [H0|Hne].
  - rewrite (system_store_resources_nothing system w p r Hp Hr Hm H0).
    eexists _, _, _, _. split; [reflexivity|]. simpl heap.
    split; [apply lookup_insert_eq|]. split; [reflexivity|].
    split; [intros p' Hp'; apply lookup_insert_ne; congruence|].
    simpl. repeat split; lia.
  - pose proof (system_store_resources_run system w p r Hp Hr Hm Hne) as Hrun.
    cbv zeta in Hrun. fold amt in Hrun. unfold try_store in Hrun.
    assert (Hspace : int_sub (max_capacity r) (amount r) = space).
    { apply int_sub_exact. unfold int_range, INT_MIN, INT_MAX. lia. }
    rewrite Hspace in Hrun.
    destruct (Z.geb_spec space amt) as [Hall|Hnot]; simpl in Hrun.
    + rewrite Hrun. eexists _, _, _, _. split; [reflexivity|]. simpl heap.
      split; [apply lookup_insert_eq|]. split; [reflexivity|].
      split; [intros p' Hp'; apply lookup_insert_ne; congruence|].
      simpl. rewrite int_add_exact
        by (unfold int_range, INT_MIN, INT_MAX; unfold space in *; lia).
      repeat split; lia.
    + destruct (Z.gtb_spec space 0) as [Hpos|Hfull]; simpl in Hrun.
      * assert (Hleft : int_sub amt space = amt - space).
        { apply int_sub_exact. unfold int_range, INT_MIN, INT_MAX.
          unfold space in *. lia. }
        rewrite Hleft in Hrun.
        destruct (Z.eqb_spec (amt - space) 0) as [Hz|_]; [lia|].
        rewrite Hrun. eexists _, _, _, _. split; [reflexivity|]. simpl heap.
        split; [apply lookup_insert_eq|]. split; [reflexivity|].
        split; [intros p' Hp'; apply lookup_insert_ne; congruence|].
        simpl. rewrite int_add_exact
          by (unfold int_range, INT_MIN, INT_MAX; unfold space in *; lia).
        unfold space in *. repeat split; lia.
      * destruct (Z.eqb_spec amt 0) as [Hz|_]; [contradiction|].
        rewrite Hrun. eexists _, _, _, _. split; [reflexivity|]. simpl heap.
        split; [apply lookup_insert_eq|]. split; [reflexivity|].
        split; [intros p' Hp'; apply lookup_insert_ne; congruence|].
        simpl. repeat split; lia.
Qed.

Lemma system_store_resources_witness :
  exists system' st w' r',
    system_store_resources generator_holding sample_world = Done (system', st) w'
    /\ heap w' !! energy_addr = Some r'
    /\ amount r' = 50 /\ amount_stored system' = 10 /\ st = STATUS_CAPACITY.
Proof.
  destruct (system_store_resources_cases generator_holding sample_world
              energy_addr energy_full)
    as (system' & st & w' & r' & Hrun & Hr' & _ & _ & _ & _ & Hnone).
  - reflexivity.
  - reflexivity.
  - simpl. lia.
  - unfold resource_inv. simpl. lia.
  - unfold int_range, INT_MIN, INT_MAX. simpl. lia.
  - unfold int_range, INT_MIN, INT_MAX. simpl. lia.
  - exists system', st, w', r'. split; [exact Hrun|]. split; [exact Hr'|].
    apply Hnone; simpl; lia.
Defined.

(** ** The capacity invariant on the heap *)

Lemma heap_inv_insert (w : World) (p : ptr) (r r' : Resource) (t : list Effect) :
  heap_inv w ->
  heap w !! p = Some r ->
  (resource_inv r -> int_range (max_capacity r) ->
   resource_inv r' /\ max_capacity r' = max_capacity r) ->
  heap_inv {| heap := <[p := r']> (heap w); trace := t |}.
Proof.
  intros Hw Hr Hstep q rq. simpl.
  destruct (decide (p = q)) as [->|Hne].
  - rewrite lookup_insert_eq. intros [= <-].
    destruct (Hw q r Hr) as [Hi Hm]. destruct (Hstep Hi Hm) as [Hi' Hm'].
    split; [exact Hi' | rewrite Hm'; exact Hm].
  - rewrite lookup_insert_ne by exact Hne. apply Hw.
Qed.

(** A call of [system_convert] with a non-negative [consumed.amount]
    leaves every resource within its capacity, whatever its outcome. *)
Lemma system_convert_heap_inv (system : System) (w : World) :
  heap_inv w ->
  0 <= ra_amount (consumed system) ->
  outcome_inv heap_inv (system_convert system w).
Proof.
  intros Hw Hreq.
  destruct (ra_resource (consumed system)) as [p|] eqn:Hp.
  - destruct (heap w !! p) as [r|] eqn:Hr.
    + destruct (Z.lt_ge_cases 0 (resource_mutex r)) as [Hm|Hm].
      * rewrite (system_convert_run system w p r Hp Hr Hm). simpl.
        apply (heap_inv_insert w p r); [exact Hw | exact Hr |].
        intros Hi Hmax. split.
        -- apply try_consume_inv; assumption.
        -- apply try_consume_max_capacity.
      * rewrite (system_convert_blocked system w p r Hp Hr) by lia. exact Hw.
    + unfold system_convert, bind, sem_wait. rewrite Hp, Hr. exact I.
  - unfold system_convert, bind, sem_wait. rewrite Hp. exact I.
Qed.

(** The same for [system_store_resources] with a non-negative
    [amount_stored]. *)
Lemma system_store_resources_heap_inv (system : System) (w : World) :
  heap_inv w ->
  0 <= amount_stored system ->
  outcome_inv heap_inv (system_store_resources system w).
Proof.
  intros Hw Hamt.
  destruct (ra_resource (produced system)) as [p|] eqn:Hp.
  - destruct (heap w !! p) as [r|] eqn:Hr.
    + destruct (Z.lt_ge_cases 0 (resource_mutex r)) as [Hm|Hm].
      * destruct (Z.eq_dec (amount_stored system) 0) as [H0|Hne].
        -- rewrite (system_store_resources_nothing system w p r Hp Hr Hm H0). simpl.
           apply (heap_inv_insert w p r); [exact Hw | exact Hr |].
           intros Hi _. split; [exact Hi | reflexivity].
        -- rewrite (system_store_resources_run system w p r Hp Hr Hm Hne).
           cbv zeta.
           destruct (snd (try_store r (amount_stored system)) =? 0); simpl;
             (apply (heap_inv_insert w p r); [exact Hw | exact Hr |]);
             intros Hi Hmax; split;
             try (apply try_store_max_capacity).
           ++ apply try_store_inv; assumption.
           ++ apply (try_store_inv r (amount_stored system)); assumption.
      * rewrite (system_store_resources_blocked system w p r Hp Hr) by lia. exact Hw.
    + unfold system_store_resources, bind, sem_wait. rewrite Hp, Hr. exact I.
  - unfold system_store_resources, bind, sem_wait. rewrite Hp. exact I.
Qed.

(** ** Locks *)

(** A successful conversion sleeps between taking and posting the
    semaphore of the consumed resource. *)
Lemma convert_trace_sleeps (system : System) (p : ptr) :
  sleeps_while_locked [] (convert_trace system p STATUS_OK) = true.
Proof. reflexivity. Qed.

(** Whenever [system_store_resources] reports [STATUS_CAPACITY], the
    semaphore it took is still taken when it returns. *)
Lemma system_store_resources_capacity_lock
    (system system' : System) (w w' : World) (p : ptr) (r : Resource) :
  ra_resource (produced system) = Some p ->
  heap w !! p = Some r ->
  system_store_resources system w = Done (system', STATUS_CAPACITY) w' ->
  exists r', heap w' !! p = Some r' /\ resource_mutex r' = resource_mutex r - 1.
Proof.
  intros Hp Hr Hrun.
  destruct (Z.lt_ge_cases 0 (resource_mutex r)) as [Hm|Hm].
  - destruct (Z.eq_dec (amount_stored system) 0) as [H0|Hne].
    + rewrite (system_store_resources_nothing system w p r Hp Hr Hm H0) in Hrun.
      discriminate Hrun.
    + rewrite (system_store_resources_run system w p r Hp Hr Hm Hne) in Hrun.
      cbv zeta in Hrun.
      destruct (snd (try_store r (amount_stored system)) =? 0); [discriminate Hrun|].
      injection Hrun as _ <-. simpl. rewrite lookup_insert_eq.
      eexists. split; reflexivity.
  - rewrite (system_store_resources_blocked system w p r Hp Hr) in Hrun by lia.
    discriminate Hrun.
Qed.

(** C6. The lock discipline fails on the code.  Storing ten units into the
    full resource Energy (50 of 50, semaphore at 1) returns
    [STATUS_CAPACITY] with the semaphore at 0 and only the [sem_wait]
    logged, so the retry of the same worker blocks; and a successful
    [system_convert] logs its sleep between the [sem_wait] and the
    [sem_post] of the consumed resource. *)
Theorem resource_lock_not_released :
  (exists system' w',
      system_store_resources generator_holding sample_world
        = Done (system', STATUS_CAPACITY) w'
      /\ resource_mutex <$> heap sample_world !! energy_addr = Some 1
      /\ resource_mutex <$> heap w' !! energy_addr = Some 0
      /\ trace w' = [SemWait energy_addr]
      /\ system_store_resources system' w' = Blocked w')
  /\ (exists system' w',
      system_convert crew_capsule_system sample_world = Done (system', STATUS_OK) w'
      /\ trace w' = [SemWait oxygen_addr; USleep 2000; SemPost oxygen_addr]
      /\ sleeps_while_locked [] (trace w') = true).
Proof.
  split.
  - eexists _, _. split; [vm_compute; reflexivity|].
    repeat split; vm_compute; reflexivity.
  - eexists _, _. split; [vm_compute; reflexivity|].
    split; vm_compute; reflexivity.
Qed.

(** C7. A worker whose [consumed.resource] is [NULL] does not get through
    [system_convert]: the semaphore of the consumed resource is waited on
    before the test for [NULL], which reads through the null pointer. *)
Theorem system_convert_null_consumed (system : System) (w : World) :
  ra_resource (consumed system) = None ->
  system_convert system w = Fault.
Proof.
  intros Hnull. unfold system_convert, bind, sem_wait. rewrite Hnull. reflexivity.
Qed.

Lemma system_convert_null_consumed_witness :
  system_convert producer_only_system sample_world = Fault.
Proof.
  apply (system_convert_null_consumed producer_only_system sample_world).
  reflexivity.
Defined.

(** ** Processing delay *)

Lemma system_simulate_process_time_run (system : System) (w : World) :
  system_simulate_process_time system w =
    Done tt {| heap := heap w;
               trace := trace w ++
                 [USleep (to_useconds (int_mul (adjusted_processing_time system) 1000))] |}.
Proof. reflexivity. Qed.

(** C9 as stated fails: in [FAST] mode a processing time of 5 ms gives a
    delay of 2 ms, which is not half of 5. *)
Lemma fast_delay_not_half :
  status fast_odd_system = FAST
  /\ processing_time fast_odd_system = 5
  /\ adjusted_processing_time fast_odd_system = 2
  /\ 2 * adjusted_processing_time fast_odd_system <> processing_time fast_odd_system.
Proof. repeat split. vm_compute. discriminate. Qed.

(** C9, amended. For a worker whose [processing_time] [t] is an [int]:
    [SLOW] gives the [int] product [t * 2], which is [2 * t] whenever that
    is an [int]; [FAST] gives [t / 2] truncated toward zero, which is half
    of [t] exactly when [t] is even; any other status gives [t]. *)
Theorem adjusted_processing_time_cases (system : System) :
  int_range (processing_time system) ->
  let t := processing_time system in
  let d := adjusted_processing_time system in
  match status system with
  | SLOW => d = int_mul t 2 /\ (int_range (2 * t) -> d = 2 * t)
  | FAST => d = Z.quot t 2 /\ (2 * d = t <-> Z.even t = true)
  | STANDARD | TERMINATE => d = t
  end.
Proof.
  intros Ht t d. subst d. unfold adjusted_processing_time. fold t.
  destruct (status system); try reflexivity.
  - split; [reflexivity|]. intros H2. unfold int_mul.
    rewrite wrap_int_id; [lia|]. replace (t * 2) with (2 * t) by lia. exact H2.
  - assert (Hq : int_div t 2 = Z.quot t 2).
    { unfold int_div. apply wrap_int_id.
      unfold int_range, INT_MIN, INT_MAX in *. fold t in Ht.
      pose proof (Z.quot_rem' t 2) as Hqr.
      pose proof (Z.rem_bound_abs t 2 ltac:(lia)) as Hb.
      lia. }
    rewrite Hq. split; [reflexivity|].
    pose proof (Z.quot_rem' t 2) as Hqr.
    rewrite Z.even_spec. split.
    + intros H. exists (Z.quot t 2). lia.
    + intros [k Hk]. subst t. rewrite Hk.
      rewrite (Z.mul_comm 2 k), Z.quot_mul by lia. lia.
Qed.

Lemma adjusted_processing_time_cases_witness :
  adjusted_processing_time fast_odd_system = Z.quot 5 2.
Proof.
  pose proof (adjusted_processing_time_cases fast_odd_system) as H.
  simpl in H. apply H. unfold int_range, INT_MIN, INT_MAX. lia.
Defined.

(** ** The event queue: single calls *)

Lemma event_queue_push_run (q : EventQueue) (e : Event) :
  0 < eventQueue_mutex q ->
  event_queue_push true e q =
    Done tt {| head := insert_node (head q) e;
               size := int_add (size q) 1;
               eventQueue_mutex := eventQueue_mutex q |}.
Proof.
  intros Hm. unfold event_queue_push, bind, queue_sem_wait, queue_sem_post.
  destruct (Z.ltb_spec 0 (eventQueue_mutex q)) as [_|Hno]; [|lia].
  simpl. do 2 f_equal. lia.
Qed.

Lemma event_queue_pop_empty (q : EventQueue) (out : Event) :
  0 < eventQueue_mutex q ->
  head q = [] ->
  event_queue_pop out q = Done (0, out) q.
Proof.
  intros Hm Hhd. unfold event_queue_pop, bind, queue_sem_wait, queue_sem_post, ret.
  destruct (Z.ltb_spec 0 (eventQueue_mutex q)) as [_|Hno]; [|lia].
  simpl. rewrite Hhd. simpl. destruct q as [hd sz mu]; simpl in *.
  subst hd. do 2 f_equal. lia.
Qed.

Lemma event_queue_pop_cons (q : EventQueue) (out e : Event) (next : list Event) :
  0 < eventQueue_mutex q ->
  head q = e :: next ->
  event_queue_pop out q =
    Done (1, e) {| head := next; size := int_sub (size q) 1;
                   eventQueue_mutex := eventQueue_mutex q |}.
Proof.
  intros Hm Hhd. unfold event_queue_pop, bind, queue_sem_wait, queue_sem_post, ret.
  destruct (Z.ltb_spec 0 (eventQueue_mutex q)) as [_|Hno]; [|lia].
  simpl. rewrite Hhd. simpl. do 2 f_equal. lia.
Qed.

(** C8. With the semaphore of the queue free, [event_queue_pop] on an empty
    queue returns 0 at once and leaves the queue and the out-parameter as
    they were; on a queue whose first node holds [e] it unlinks that node,
    writes [e] to the out-parameter and returns 1. *)
Theorem event_queue_pop_cases (q : EventQueue) (out : Event) :
  0 < eventQueue_mutex q ->
  match head q with
  | [] => event_queue_pop out q = Done (0, out) q
  | e :: next =>
      event_queue_pop out q =
        Done (1, e) {| head := next; size := int_sub (size q) 1;
                       eventQueue_mutex := eventQueue_mutex q |}
  end.
Proof.
  intros Hm. destruct (head q) as [|e next] eqn:Hhd.
  - apply event_queue_pop_empty; assumption.
  - apply event_queue_pop_cons; assumption.
Qed.

Lemma event_queue_pop_cases_witness :
  event_queue_pop (sample_event 0 0) empty_queue = Done (0, sample_event 0 0) empty_queue.
Proof.
  apply (event_queue_pop_cases empty_queue (sample_event 0 0)).
  simpl. lia.
Defined.

(** C10. When the allocation of the node fails, [event_queue_push] returns
    with the queue exactly as it was: same events in the same order, same
    [size], and the semaphore back at its value, so that later calls are
    not blocked. *)
Theorem event_queue_push_malloc_fails (q : EventQueue) (e : Event) :
  0 < eventQueue_mutex q ->
  event_queue_push false e q = Done tt q.
Proof.
  intros Hm. unfold event_queue_push, bind, queue_sem_wait, queue_sem_post.
  destruct (Z.ltb_spec 0 (eventQueue_mutex q)) as [_|Hno]; [|lia].
  simpl. destruct q as [hd sz mu]; simpl in *. do 2 f_equal. lia.
Qed.

Lemma event_queue_push_malloc_fails_witness :
  event_queue_push false (sample_event 3 7) empty_queue = Done tt empty_queue.
Proof.
  apply (event_queue_push_malloc_fails empty_queue (sample_event 3 7)).
  simpl. lia.
Defined.

(** ** Insertion keeps the chain ordered *)

Lemma insert_node_eq (l : list Event) (e : Event) :
  insert_node l e = insert_after l e.
Proof.
  destruct l as [|h next]; simpl; [reflexivity|].
  destruct (Z.ltb_spec (ev_priority h) (ev_priority e));
    destruct (Z.geb_spec (ev_priority h) (ev_priority e)); try lia; reflexivity.
Qed.

(** The node goes right after the leading run of events whose priority is
    at least its own. *)
Lemma insert_node_spec (l : list Event) (e : Event) :
  insert_node l e =
    take_while (fun x => ev_priority x >=? ev_priority e) l
    ++ e :: drop_while (fun x => ev_priority x >=? ev_priority e) l.
Proof.
  rewrite insert_node_eq.
  induction l as [|n rest IH]; simpl; [reflexivity|].
  destruct (ev_priority n >=? ev_priority e); simpl; [rewrite IH|]; reflexivity.
Qed.

Lemma insert_after_Forall (P : Event -> Prop) (l : list Event) (e : Event) :
  Forall P l -> P e -> Forall P (insert_after l e).
Proof.
  intros Hl He. induction Hl as [|n rest Hn Hrest IH]; simpl.
  - constructor; [exact He | constructor].
  - destruct (ev_priority n >=? ev_priority e).
    + constructor; assumption.
    + constructor; [exact He | constructor; assumption].
Qed.

Lemma insert_after_sorted (l : list Event) (e : Event) :
  priority_sorted l -> priority_sorted (insert_after l e).
Proof.
  unfold priority_sorted. intros Hl.
  induction Hl as [|n rest Hrest IH Hn]; simpl.
  - constructor; constructor.
  - destruct (Z.geb_spec (ev_priority n) (ev_priority e)) as [Hge|Hlt].
    + constructor; [exact IH|].
      apply insert_after_Forall; [exact Hn | lia].
    + constructor; [constructor; assumption|].
      constructor; [lia|].
      eapply Forall_impl; [exact Hn|]. simpl. intros x Hx. lia.
Qed.

Lemma filter_below_nil (p : Z) (l : list Event) :
  Forall (fun x => ev_priority x < p) l -> List.filter (has_priority p) l = [].
Proof.
  induction 1 as [|x l Hx Hl IH]; simpl; [reflexivity|].
  unfold has_priority at 1. destruct (Z.eqb_spec (ev_priority x) p); [lia|exact IH].
Qed.

(** Among the events of one priority the new node comes last. *)
Lemma insert_after_filter (p : Z) (l : list Event) (e : Event) :
  priority_sorted l ->
  List.filter (has_priority p) (insert_after l e) =
    List.filter (has_priority p) l ++ List.filter (has_priority p) [e].
Proof.
  unfold priority_sorted. intros Hl.
  induction Hl as [|n rest Hrest IH Hn]; [reflexivity|].
  cbn [insert_after].
  destruct (Z.geb_spec (ev_priority n) (ev_priority e)) as [Hge|Hlt].
  - cbn [List.filter]. rewrite IH.
    destruct (has_priority p n); reflexivity.
  - cbn [List.filter].
    destruct (has_priority p e) eqn:He.
    + assert (Hnil : List.filter (has_priority p) (n :: rest) = []).
      { unfold has_priority in He. apply Z.eqb_eq in He.
        apply filter_below_nil. constructor; [lia|].
        eapply Forall_impl; [exact Hn|]. simpl. intros x Hx. lia. }
      cbn [List.filter] in Hnil. rewrite Hnil. reflexivity.
    + rewrite app_nil_r. reflexivity.
Qed.

Lemma insert_after_perm (l : list Event) (e : Event) :
  Permutation (insert_after l e) (e :: l).
Proof.
  induction l as [|n rest IH]; simpl; [reflexivity|].
  destruct (ev_priority n >=? ev_priority e); [|reflexivity].
  rewrite IH. apply perm_swap.
Qed.

(** ** Sequences of pushes and pops *)

Lemma run_ops_push (q : EventQueue) (e : Event) (rest : list QueueOp) (out : Event) :
  0 < eventQueue_mutex q ->
  run_ops (OpPush e :: rest) out q =
    run_ops rest out {| head := insert_node (head q) e;
                        size := int_add (size q) 1;
                        eventQueue_mutex := eventQueue_mutex q |}.
Proof.
  intros Hm. cbn [run_ops]. unfold bind at 1.
  rewrite event_queue_push_run by exact Hm. reflexivity.
Qed.

Lemma run_ops_pop_empty (q : EventQueue) (rest : list QueueOp) (out : Event) :
  0 < eventQueue_mutex q ->
  head q = [] ->
  run_ops (OpPop :: rest) out q = run_ops rest out q.
Proof.
  intros Hm Hhd. cbn [run_ops]. unfold bind at 1.
  rewrite event_queue_pop_empty by assumption. cbn [fst snd].
  unfold bind, ret. simpl. destruct (run_ops rest out q); reflexivity.
Qed.

Lemma run_ops_pop_cons (q : EventQueue) (e : Event) (next : list Event)
    (rest : list QueueOp) (out : Event) :
  0 < eventQueue_mutex q ->
  head q = e :: next ->
  run_ops (OpPop :: rest) out q =
    bind (run_ops rest e) (fun popped => ret (e :: popped))
      {| head := next; size := int_sub (size q) 1;
         eventQueue_mutex := eventQueue_mutex q |}.
Proof.
  intros Hm Hhd. cbn [run_ops]. unfold bind at 1.
  rewrite (event_queue_pop_cons q out e next) by assumption. reflexivity.
Qed.

(** Every sequence of operations on a queue whose semaphore is free runs to
    the end, leaves the semaphore free, and hands out or keeps each event
    exactly once. *)
Lemma run_ops_conservation (ops : list QueueOp) :
  forall (q : EventQueue) (out : Event),
    0 < eventQueue_mutex q ->
    exists popped q',
      run_ops ops out q = Done popped q'
      /\ eventQueue_mutex q' = eventQueue_mutex q
      /\ Permutation (head q ++ pushed ops) (popped ++ head q')
      /\ (never_underflows (length (head q)) ops = true ->
          length popped = count_pops ops).
Proof.
  induction ops as [|[e|] rest IH]; intros q out Hm.
  - exists [], q. cbn. rewrite app_nil_r. repeat split; reflexivity.
  - rewrite run_ops_push by exact Hm.
    set (q1 := {| head := insert_node (head q) e; size := int_add (size q) 1;
                  eventQueue_mutex := eventQueue_mutex q |}).
    destruct (IH q1 out Hm) as (popped & q' & Hrun & Hmu & Hperm & Hlen).
    exists popped, q'. split; [exact Hrun|]. split; [exact Hmu|]. split.
    + rewrite <- Hperm. subst q1. cbn [head pushed flat_map app].
      rewrite insert_node_eq, insert_after_perm.
      simpl. symmetry. apply Permutation_middle.
    + intros Hnu. apply Hlen. subst q1. cbn [head].
      rewrite insert_node_eq, (Permutation_length (insert_after_perm _ _)).
      exact Hnu.
  - destruct (head q) as [|e next] eqn:Hhd.
    + rewrite run_ops_pop_empty by assumption.
      destruct (IH q out Hm) as (popped & q' & Hrun & Hmu & Hperm & Hlen).
      exists popped, q'. rewrite Hhd in Hperm.
      repeat split; try assumption. cbn. discriminate.
    + rewrite (run_ops_pop_cons q e next) by assumption.
      set (q1 := {| head := next; size := int_sub (size q) 1;
                    eventQueue_mutex := eventQueue_mutex q |}).
      destruct (IH q1 e Hm) as (popped & q' & Hrun & Hmu & Hperm & Hlen).
      exists (e :: popped), q'. unfold bind. rewrite Hrun.
      split; [reflexivity|]. split; [exact Hmu|]. split.
      * cbn. apply perm_skip. exact Hperm.
      * cbn. intros Hnu. unfold count_pops in Hlen. rewrite Hlen; [reflexivity|].
        subst q1. exact Hnu.
Qed.

Lemma run_ops_pushes (es : list Event) (ops : list QueueOp) :
  forall (q : EventQueue) (out : Event),
    0 < eventQueue_mutex q ->
    exists sz,
      run_ops (map OpPush es ++ ops) out q =
        run_ops ops out {| head := fold_left insert_node es (head q);
                           size := sz;
                           eventQueue_mutex := eventQueue_mutex q |}.
Proof.
  induction es as [|e es IH]; intros q out Hm.
  - exists (size q). destruct q; reflexivity.
  - cbn [map app]. rewrite run_ops_push by exact Hm.
    destruct (IH {| head := insert_node (head q) e; size := int_add (size q) 1;
                    eventQueue_mutex := eventQueue_mutex q |} out Hm) as [sz Hsz].
    exists sz. exact Hsz.
Qed.

Lemma run_ops_pops (k : nat) :
  forall (q : EventQueue) (out : Event),
    0 < eventQueue_mutex q ->
    exists sz,
      run_ops (repeat OpPop k) out q =
        Done (take k (head q))
             {| head := drop k (head q); size := sz;
                eventQueue_mutex := eventQueue_mutex q |}.
Proof.
  induction k as [|k IH]; intros q out Hm.
  - exists (size q). destruct q; reflexivity.
  - cbn [repeat]. destruct (head q) as [|e next] eqn:Hhd.
    + rewrite run_ops_pop_empty by assumption.
      destruct (IH q out Hm) as [sz Hsz]. exists sz.
      rewrite Hsz, Hhd. destruct k; reflexivity.
    + rewrite (run_ops_pop_cons q e next) by assumption.
      destruct (IH {| head := next; size := int_sub (size q) 1;
                      eventQueue_mutex := eventQueue_mutex q |} e Hm) as [sz Hsz].
      exists sz. unfold bind. rewrite Hsz. reflexivity.
Qed.

(** Draining: popping until the queue reports that it is empty. *)
Lemma drain_all (fuel : nat) :
  forall (q : EventQueue) (out : Event),
    0 < eventQueue_mutex q ->
    (length (head q) <= fuel)%nat ->
    exists q', drain fuel out q = Done (head q) q' /\ head q' = [].
Proof.
  induction fuel as [|fuel IH]; intros q out Hm Hlen.
  - destruct (head q) as [|e next] eqn:Hhd; [|simpl in Hlen; lia].
    exists q. split; [reflexivity | exact Hhd].
  - cbn [drain]. unfold bind at 1.
    destruct (head q) as [|e next] eqn:Hhd.
    + rewrite event_queue_pop_empty by assumption. cbn.
      exists q. split; [reflexivity | exact Hhd].
    + rewrite (event_queue_pop_cons q out e next) by assumption. cbn [fst snd].
      destruct (IH {| head := next; size := int_sub (size q) 1;
                      eventQueue_mutex := eventQueue_mutex q |} e Hm)
        as (q' & Hrun & Hq'); [simpl in *; lia|].
      exists q'. split; [|exact Hq'].
      simpl. unfold bind. rewrite Hrun. reflexivity.
Qed.

(** ** Priority order *)

Lemma fold_insert_sorted (es : list Event) :
  forall l, priority_sorted l -> priority_sorted (fold_left insert_node es l).
Proof.
  induction es as [|e es IH]; intros l Hl; simpl; [exact Hl|].
  apply IH. rewrite insert_node_eq. apply insert_after_sorted. exact Hl.
Qed.

Lemma fold_insert_filter (p : Z) (es : list Event) :
  forall l,
    priority_sorted l ->
    List.filter (has_priority p) (fold_left insert_node es l) =
      List.filter (has_priority p) l ++ List.filter (has_priority p) es.
Proof.
  induction es as [|e es IH]; intros l Hl; simpl fold_left.
  - simpl. rewrite app_nil_r. reflexivity.
  - rewrite IH by (rewrite insert_node_eq; apply insert_after_sorted; exact Hl).
    rewrite insert_node_eq, insert_after_filter by exact Hl.
    rewrite <- app_assoc. f_equal.
    cbn [List.filter]. destruct (has_priority p e); reflexivity.
Qed.

Lemma fold_insert_length (es : list Event) :
  forall l, length (fold_left insert_node es l) = (length l + length es)%nat.
Proof.
  induction es as [|e es IH]; intros l; simpl; [lia|].
  rewrite IH, insert_node_eq, (Permutation_length (insert_after_perm l e)).
  simpl. lia.
Qed.

Lemma priority_sorted_take (k : nat) (l : list Event) :
  priority_sorted l -> priority_sorted (take k l).
Proof.
  unfold priority_sorted. intros Hl. revert k.
  induction Hl as [|x l Hl IH Hx]; intros [|k]; simpl; try constructor.
  - apply IH.
  - apply Forall_take. exact Hx.
Qed.

(** C4. Pushing the events [es] onto a freshly initialised queue and then
    popping [k] times hands out the first [min k (length es)] events of
    the queue, with priorities that never increase, and among the events of
    any one priority in the order in which they were pushed.  Each push
    links the new node right after the leading run of queued events whose
    priority is at least its own. *)
Theorem priority_order (q0 : EventQueue) (es : list Event) (k : nat) (out : Event) :
  (exists popped q',
      run_ops (map OpPush es ++ repeat OpPop k) out (event_queue_init q0)
        = Done popped q'
      /\ length popped = Nat.min k (length es)
      /\ priority_sorted popped
      /\ (forall p, exists later,
            List.filter (has_priority p) es =
              List.filter (has_priority p) popped ++ later))
  /\ (forall (q : EventQueue) (e : Event),
        0 < eventQueue_mutex q ->
        exists q',
          event_queue_push true e q = Done tt q'
          /\ head q' =
               take_while (fun x => ev_priority x >=? ev_priority e) (head q)
               ++ e :: drop_while (fun x => ev_priority x >=? ev_priority e) (head q)).
Proof.
  split.
  - assert (Hm : 0 < eventQueue_mutex (event_queue_init q0)) by (simpl; lia).
    destruct (run_ops_pushes es (repeat OpPop k) (event_queue_init q0) out Hm)
      as [sz Hpush].
    rewrite Hpush. cbn [event_queue_init head eventQueue_mutex].
    set (q1 := {| head := fold_left insert_node es []; size := sz;
                  eventQueue_mutex := 1 |}).
    destruct (run_ops_pops k q1 out) as [sz' Hpop]; [simpl; lia|].
    rewrite Hpop. eexists _, _. split; [reflexivity|].
    subst q1. cbn [head].
    assert (Hs : priority_sorted (fold_left insert_node es [])).
    { apply fold_insert_sorted. constructor. }
    split; [|split].
    + rewrite length_take, fold_insert_length. reflexivity.
    + apply priority_sorted_take. exact Hs.
    + intros p. exists (List.filter (has_priority p) (drop k (fold_left insert_node es []))).
      rewrite <- List.filter_app, take_drop.
      rewrite fold_insert_filter by constructor. reflexivity.
  - intros q e Hm. rewrite event_queue_push_run by exact Hm.
    eexists. split; [reflexivity|]. cbn [head]. apply insert_node_spec.
Qed.

(** ** Conservation *)

(** [event_queue_init] does not write the [size] field. *)
Lemma event_queue_init_size (q : EventQueue) :
  size (event_queue_init q) = size q.
Proof. reflexivity. Qed.

(** C5 as stated fails: one pop followed by one push is a sequence with
    [N = 1] pushes and [M = 1 <= N] pops; the pop finds the queue empty and
    returns 0, so the queue holds one event at the end, not [N - M = 0]. *)
Lemma pop_before_push_keeps_event :
  let ops := [OpPop; OpPush (sample_event 1 0)] in
  let N := length (pushed ops) in
  let M := count_pops ops in
  (M <= N)%nat
  /\ exists popped q',
       run_ops ops (sample_event 0 0) empty_queue = Done popped q'
       /\ popped = []
       /\ head q' = [sample_event 1 0]
       /\ length (head q') <> (N - M)%nat
       /\ size q' <> Z.of_nat N - Z.of_nat M.
Proof.
  cbv zeta. split; [cbn; lia|].
  eexists _, _. split; [reflexivity|]. cbn. repeat split; discriminate.
Qed.

(** The [size] counter starts from whatever the memory of the queue held:
    after [event_queue_init] on memory whose [size] field reads 7, one push
    leaves [size] at 8 with one event queued. *)
Example size_counts_from_old_memory :
  run_ops [OpPush (sample_event 1 0)] (sample_event 0 0)
    (event_queue_init {| head := []; size := 7; eventQueue_mutex := 0 |})
  = Done [] {| head := [sample_event 1 0]; size := 8; eventQueue_mutex := 1 |}.
Proof. reflexivity. Qed.

(** C5, amended. On a freshly initialised queue, every sequence of [N]
    pushes and [M] pops in which no pop finds the queue empty (each pop is
    preceded by more pushes than pops, as when all pushes come first and
    [M <= N]) runs to the end, hands out [M] events and leaves [N - M]
    events queued; draining then returns exactly the queued events and
    empties the queue, and the pushed events are, with multiplicity, the
    popped ones together with the drained ones. *)
Theorem push_pop_conservation (q0 : EventQueue) (ops : list QueueOp) (out : Event) :
  never_underflows 0 ops = true ->
  exists popped q',
    run_ops ops out (event_queue_init q0) = Done popped q'
    /\ length popped = count_pops ops
    /\ (length (head q') + count_pops ops = length (pushed ops))%nat
    /\ Permutation (pushed ops) (popped ++ head q')
    /\ (forall fuel out',
          (length (head q') <= fuel)%nat ->
          exists q'', drain fuel out' q' = Done (head q') q'' /\ head q'' = []).
Proof.
  intros Hnu.
  assert (Hm : 0 < eventQueue_mutex (event_queue_init q0)) by (simpl; lia).
  destruct (run_ops_conservation ops (event_queue_init q0) out Hm)
    as (popped & q' & Hrun & Hmu & Hperm & Hlen).
  cbn [event_queue_init head eventQueue_mutex app length] in *.
  specialize (Hlen Hnu).
  exists popped, q'. split; [exact Hrun|]. split; [exact Hlen|]. split; [|split].
  - apply Permutation_length in Hperm. rewrite length_app in Hperm. lia.
  - exact Hperm.
  - intros fuel out' Hfuel. apply drain_all; [lia | exact Hfuel].
Qed.

Lemma push_pop_conservation_witness :
  exists popped q',
    run_ops [OpPush (sample_event 1 0); OpPush (sample_event 2 0); OpPop]
      (sample_event 0 0) empty_queue = Done popped q'
    /\ length popped = 1%nat.
Proof.
  destruct (push_pop_conservation
              {| head := []; size := 0; eventQueue_mutex := 0 |}
              [OpPush (sample_event 1 0); OpPush (sample_event 2 0); OpPop]
              (sample_event 0 0))
    as (popped & q' & Hrun & Hlen & _).
  - reflexivity.
  - exists popped, q'. split; [exact Hrun | exact Hlen].
Defined.

(** ** A cycle that meets a full resource

    The generator converts five units of Fuel and then finds Energy full: the cycle reports [STATUS_CAPACITY] at low priority
    with the amount of Energy, keeps the ten units in [amount_stored], and
    sleeps the back-off with the semaphore of Energy still taken; the next
    cycle of the same worker blocks on that semaphore. *)
Lemma system_run_full_resource (hi lo wait : Z) :
  exists system' s',
    system_run hi lo wait true generator_addr generator_system
      {| world := sample_world; queue := empty_queue |} = Done system' s'
    /\ amount_stored system' = 10
    /\ head (queue s') =
         [event_init (Some generator_addr) (Some energy_addr) STATUS_CAPACITY lo 50]
    /\ trace (world s') =
         [SemWait fuel_addr; USleep 20000; SemPost fuel_addr;
          SemWait energy_addr; USleep (to_useconds (int_mul wait 1000))]
    /\ sleeps_while_locked [] (trace (world s')) = true
    /\ system_run hi lo wait true generator_addr system' s' = Blocked s'.
Proof.
  eexists _, _. split; [reflexivity|].
  repeat split.
Qed.

(** ** The capacity invariant over a whole cycle *)

Lemma preserves_ret {S A} (P : S -> Prop) (a : A) : preserves P (ret a).
Proof. intros s Hs. exact Hs. Qed.

Lemma preserves_bind {S A B} (P : S -> Prop) (m : M S A) (k : A -> M S B) :
  preserves P m -> (forall a, preserves P (k a)) -> preserves P (bind m k).
Proof.
  intros Hm Hk s Hs. unfold bind. specialize (Hm s Hs).
  destruct (m s) as [a s'| s'|]; simpl in *.
  - apply Hk. exact Hm.
  - exact Hm.
  - exact I.
Qed.

Lemma preserves_lift_world {A} (P : World -> Prop) (m : M World A) :
  preserves P m -> preserves (fun s => P (world s)) (lift_world m).
Proof.
  intros Hm s Hs. unfold lift_world. specialize (Hm (world s) Hs).
  destruct (m (world s)); simpl in *; assumption.
Qed.

Lemma preserves_lift_queue {A} (P : World -> Prop) (m : M EventQueue A) :
  preserves (fun s => P (world s)) (lift_queue m).
Proof.
  intros s Hs. unfold lift_queue.
  destruct (m (queue s)); simpl; try assumption. exact I.
Qed.

Lemma load_heap_inv (p : option ptr) : preserves heap_inv (load p).
Proof.
  intros w Hw. unfold load.
  destruct p as [a|]; [|exact I]. destruct (heap w !! a); [exact Hw|exact I].
Qed.

Lemma usleep_heap_inv (usec : Z) : preserves heap_inv (usleep usec).
Proof. intros w Hw. exact Hw. Qed.

Lemma report_heap_inv (malloc_ok : bool) (system : System) (event : Event) :
  preserves (fun s => heap_inv (world s)) (report malloc_ok system event).
Proof.
  unfold report. destruct (event_queue system).
  - apply preserves_lift_queue.
  - intros s Hs. exact I.
Qed.

(** A cycle of a worker whose [consumed.amount] is not negative keeps every
    resource within its capacity: [system_store_resources] is only entered
    with a positive [amount_stored]. *)
Lemma system_run_heap_inv (hi lo wait : Z) (malloc_ok : bool) (self : ptr)
    (system : System) :
  0 <= ra_amount (consumed system) ->
  preserves (fun s => heap_inv (world s)) (system_run hi lo wait malloc_ok self system).
Proof.
  intros Hreq. unfold system_run.
  apply preserves_bind.
  - destruct (amount_stored system =? 0); [|apply preserves_ret].
    apply preserves_bind.
    + apply preserves_lift_world. intros w Hw.
      apply system_convert_heap_inv; assumption.
    + intros [system' st]. destruct (negb (StatusCode_eqb st STATUS_OK)).
      * apply preserves_bind;
          [apply preserves_lift_world, load_heap_inv|intros r].
        apply preserves_bind; [apply report_heap_inv|intros _].
        apply preserves_bind;
          [apply preserves_lift_world, usleep_heap_inv|intros _].
        apply preserves_ret.
      * apply preserves_ret.
  - intros system1.
    destruct (Z.gtb_spec (amount_stored system1) 0) as [Hpos|_];
      [|apply preserves_ret].
    apply preserves_bind.
    + apply preserves_lift_world. intros w Hw.
      apply system_store_resources_heap_inv; [exact Hw | lia].
    + intros [system' st]. destruct (negb (StatusCode_eqb st STATUS_OK)).
      * apply preserves_bind;
          [apply preserves_lift_world, load_heap_inv|intros r].
        apply preserves_bind; [apply report_heap_inv|intros _].
        apply preserves_bind;
          [apply preserves_lift_world, usleep_heap_inv|intros _].
        apply preserves_ret.
      * apply preserves_ret.
Qed.

(** * Further properties of the code *)

(** ** One cycle of a worker *)

Lemma lift_world_done {A} (m : M World A) (s : Machine) (a : A) (w : World) :
  m (world s) = Done a w ->
  lift_world m s = Done a {| world := w; queue := queue s |}.
Proof. intros H. unfold lift_world. rewrite H. reflexivity. Qed.

Lemma set_amount_stored_same (system : System) :
  set_amount_stored system (amount_stored system) = system.
Proof. destruct system; reflexivity. Qed.

Lemma set_amount_stored_twice (system : System) (a b : Z) :
  set_amount_stored (set_amount_stored system a) b = set_amount_stored system b.
Proof. reflexivity. Qed.

(** X1. A cycle that finds what it needs: a worker with nothing stored,
    whose consumed resource holds at least [consumed.amount] and whose
    produced resource (a different one) has room for [produced.amount],
    takes the one, sleeps its processing time, adds the other, pushes no
    event, ends with nothing stored and leaves both semaphores as they
    were. *)
Theorem system_run_success (hi lo wait : Z) (malloc_ok : bool) (self : ptr)
    (system : System) (s : Machine) (p1 p2 : ptr) (r1 r2 : Resource) :
  amount_stored system = 0 ->
  ra_resource (consumed system) = Some p1 ->
  ra_resource (produced system) = Some p2 ->
  p1 <> p2 ->
  heap (world s) !! p1 = Some r1 ->
  heap (world s) !! p2 = Some r2 ->
  0 < resource_mutex r1 ->
  0 < resource_mutex r2 ->
  0 <= ra_amount (consumed system) <= amount r1 ->
  int_range (amount r1) ->
  resource_inv r2 ->
  int_range (max_capacity r2) ->
  0 < ra_amount (produced system) <= max_capacity r2 - amount r2 ->
  system_run hi lo wait malloc_ok self system s =
    Done system
      {| world :=
           {| heap := <[p2 := set_amount r2 (amount r2 + ra_amount (produced system))]>
                        (<[p1 := set_amount r1 (amount r1 - ra_amount (consumed system))]>
                           (heap (world s)));
              trace := trace (world s) ++
                [SemWait p1;
                 USleep (to_useconds (int_mul (adjusted_processing_time system) 1000));
                 SemPost p1; SemWait p2; SemPost p2] |};
         queue := queue s |}.
Proof.
  intros H0 Hp1 Hp2 Hne Hr1 Hr2 Hm1 Hm2 Hreq Hir1 Hinv2 Hmax2 Hprod.
  unfold resource_inv, int_range, INT_MIN, INT_MAX in *.
  unfold system_run. rewrite H0. cbn [Z.eqb].
  unfold bind at 1. unfold bind at 1.
  rewrite (lift_world_done _ _ _ _ (system_convert_run system (world s) p1 r1 Hp1 Hr1 Hm1)).
  unfold try_consume.
  destruct (Z.geb_spec (amount r1) (ra_amount (consumed system))) as [_|Hlt]; [|lia].
  cbn [fst snd StatusCode_eqb negb ret].
  unfold convert_system, convert_trace. cbn [StatusCode_eqb]. rewrite Hp2, H0.
  rewrite int_sub_exact by (unfold int_range, INT_MIN, INT_MAX; lia).
  rewrite int_add_exact by (unfold int_range, INT_MIN, INT_MAX; lia).
  rewrite Z.add_0_l.
  set (system2 := set_amount_stored system (ra_amount (produced system))).
  set (w1 := {| heap := _; trace := _ |}).
  destruct (Z.gtb_spec (amount_stored system2) 0) as [_|Hle]; [|simpl in Hle; lia].
  assert (Hr2' : heap w1 !! p2 = Some r2).
  { subst w1. simpl. rewrite lookup_insert_ne by exact Hne. exact Hr2. }
  assert (Hne2 : amount_stored system2 <> 0) by (simpl; lia).
  pose proof (system_store_resources_run system2 w1 p2 r2 Hp2 Hr2' Hm2 Hne2) as Hrun.
  cbv zeta in Hrun. unfold try_store in Hrun.
  rewrite int_sub_exact in Hrun by (unfold int_range, INT_MIN, INT_MAX; lia).
  simpl amount_stored in Hrun.
  destruct (Z.geb_spec (max_capacity r2 - amount r2) (ra_amount (produced system)))
    as [_|Hlt2]; [|lia].
  cbn [fst snd Z.eqb] in Hrun.
  rewrite int_add_exact in Hrun by (unfold int_range, INT_MIN, INT_MAX; lia).
  unfold bind at 1.
  rewrite (lift_world_done _ {| world := w1; queue := queue s |} _ _ Hrun).
  cbn [StatusCode_eqb negb ret]. subst system2 w1. cbn [heap trace queue].
  rewrite <- app_assoc. cbn [app].
  assert (Hsys : set_amount_stored
                   (set_amount_stored system (ra_amount (produced system))) 0
                 = system).
  { rewrite set_amount_stored_twice, <- H0. apply set_amount_stored_same. }
  rewrite Hsys. reflexivity.
Qed.

Lemma lift_queue_done {A} (m : M EventQueue A) (s : Machine) (a : A) (q : EventQueue) :
  m (queue s) = Done a q ->
  lift_queue m s = Done a {| world := world s; queue := q |}.
Proof. intros H. unfold lift_queue. rewrite H. reflexivity. Qed.

Lemma event_queue_push_dropped (q : EventQueue) (e : Event) :
  0 < eventQueue_mutex q ->
  event_queue_push false e q = Done tt q.
Proof.
  intros Hm. unfold event_queue_push, bind, queue_sem_wait, queue_sem_post.
  destruct (Z.ltb_spec 0 (eventQueue_mutex q)) as [_|Hno]; [|lia].
  simpl. destruct q as [hd sz mu]; simpl in *. do 2 f_equal. lia.
Qed.

(** The queue after a worker has tried to report [event]: the event is
    linked in when the node can be allocated, and dropped when it cannot. *)
Lemma report_run (malloc_ok : bool) (system : System) (event : Event)
    (s : Machine) (qa : ptr) :
  event_queue system = Some qa ->
  0 < eventQueue_mutex (queue s) ->
  report malloc_ok system event s =
    Done tt {| world := world s;
               queue := if malloc_ok
                        then {| head := insert_node (head (queue s)) event;
                                size := int_add (size (queue s)) 1;
                                eventQueue_mutex := eventQueue_mutex (queue s) |}
                        else queue s |}.
Proof.
  intros Hq Hm. unfold report. rewrite Hq. apply lift_queue_done.
  destruct malloc_ok.
  - apply event_queue_push_run. exact Hm.
  - apply event_queue_push_dropped. exact Hm.
Qed.

(** X2. A cycle that cannot consume: the consumed resource is left as it
    was, exactly one event is reported (dropped if its node cannot be
    allocated) with [PRIORITY_HIGH], the status [STATUS_EMPTY] when the
    resource holds nothing and [STATUS_INSUFFICIENT] otherwise, and the
    amount the resource holds; the worker sleeps the back-off after the
    semaphore has been posted and stays with nothing stored. *)
Theorem system_run_consume_failure (hi lo wait : Z) (malloc_ok : bool) (self : ptr)
    (system : System) (s : Machine) (p1 qa : ptr) (r1 : Resource) :
  amount_stored system = 0 ->
  ra_resource (consumed system) = Some p1 ->
  heap (world s) !! p1 = Some r1 ->
  0 < resource_mutex r1 ->
  amount r1 < ra_amount (consumed system) ->
  event_queue system = Some qa ->
  0 < eventQueue_mutex (queue s) ->
  let event :=
    event_init (Some self) (Some p1)
      (if amount r1 =? 0 then STATUS_EMPTY else STATUS_INSUFFICIENT)
      hi (amount r1) in
  system_run hi lo wait malloc_ok self system s =
    Done system
      {| world :=
           {| heap := heap (world s);
              trace := trace (world s) ++
                [SemWait p1; SemPost p1; USleep (to_useconds (int_mul wait 1000))] |};
         queue := if malloc_ok
                  then {| head := insert_node (head (queue s)) event;
                          size := int_add (size (queue s)) 1;
                          eventQueue_mutex := eventQueue_mutex (queue s) |}
                  else queue s |}.
Proof.
  intros H0 Hp1 Hr1 Hm1 Hlt Hq Hqm event.
  unfold system_run. rewrite H0. cbn [Z.eqb].
  unfold bind at 1. unfold bind at 1.
  rewrite (lift_world_done _ _ _ _ (system_convert_run system (world s) p1 r1 Hp1 Hr1 Hm1)).
  unfold try_consume.
  destruct (Z.geb_spec (amount r1) (ra_amount (consumed system))) as [Hge|_]; [lia|].
  cbn [fst snd].
  set (st := if amount r1 =? 0 then STATUS_EMPTY else STATUS_INSUFFICIENT).
  assert (Hst : StatusCode_eqb st STATUS_OK = false)
    by (subst st; destruct (amount r1 =? 0); reflexivity).
  unfold convert_system, convert_trace. rewrite Hst. cbn [negb].
  rewrite insert_id by exact Hr1.
  set (w1 := {| heap := heap (world s); trace := _ |}).
  unfold bind at 1.
  assert (Hload : load (ra_resource (consumed system)) w1 = Done r1 w1).
  { unfold load. rewrite Hp1. subst w1. simpl. rewrite Hr1. reflexivity. }
  rewrite (lift_world_done _ {| world := w1; queue := queue s |} _ _ Hload).
  unfold bind at 1.
  rewrite (report_run malloc_ok system _ _ qa Hq) by exact Hqm.
  unfold bind at 1. unfold lift_world at 1, usleep, log, ret.
  cbn [world queue heap trace].
  rewrite H0. cbn [Z.gtb Z.compare].
  subst w1. cbn [heap trace]. rewrite <- app_assoc. cbn [app].
  rewrite Hp1. reflexivity.
Qed.

Lemma system_run_capacity_failure_run (hi lo wait : Z) (malloc_ok : bool) (self : ptr)
    (system : System) (s : Machine) (p2 qa : ptr) (r2 : Resource) :
  0 < amount_stored system ->
  int_range (amount_stored system) ->
  ra_resource (produced system) = Some p2 ->
  heap (world s) !! p2 = Some r2 ->
  0 < resource_mutex r2 ->
  resource_inv r2 ->
  int_range (max_capacity r2) ->
  max_capacity r2 - amount r2 < amount_stored system ->
  event_queue system = Some qa ->
  0 < eventQueue_mutex (queue s) ->
  let leftover := amount_stored system - (max_capacity r2 - amount r2) in
  let event :=
    event_init (Some self) (Some p2) STATUS_CAPACITY lo (max_capacity r2) in
  system_run hi lo wait malloc_ok self system s =
    Done (set_amount_stored system leftover)
      {| world :=
           {| heap := <[p2 := set_resource_mutex
                                (set_amount r2 (max_capacity r2))
                                (resource_mutex r2 - 1)]> (heap (world s));
              trace := trace (world s) ++
                [SemWait p2; USleep (to_useconds (int_mul wait 1000))] |};
         queue := if malloc_ok
                  then {| head := insert_node (head (queue s)) event;
                          size := int_add (size (queue s)) 1;
                          eventQueue_mutex := eventQueue_mutex (queue s) |}
                  else queue s |}.
Proof.
  intros Hpos Hir Hp2 Hr2 Hm2 Hinv Hmax Hfull Hq Hqm leftover event.
  unfold resource_inv, int_range, INT_MIN, INT_MAX in *.
  unfold system_run.
  destruct (Z.eqb_spec (amount_stored system) 0) as [H0|Hne]; [lia|].
  unfold bind at 1. unfold ret at 1.
  destruct (Z.gtb_spec (amount_stored system) 0) as [_|Hle]; [|lia].
  pose proof (system_store_resources_run system (world s) p2 r2 Hp2 Hr2 Hm2 Hne) as Hrun.
  cbv zeta in Hrun.
  assert (Hres : try_store r2 (amount_stored system) =
                 (set_amount r2 (max_capacity r2), leftover)).
  { unfold try_store.
    rewrite int_sub_exact by (unfold int_range, INT_MIN, INT_MAX; lia).
    destruct (Z.geb_spec (max_capacity r2 - amount r2) (amount_stored system))
      as [Hge|_]; [lia|].
    destruct (Z.gtb_spec (max_capacity r2 - amount r2) 0) as [Hsp|Hsp].
    - rewrite int_add_exact by (unfold int_range, INT_MIN, INT_MAX; lia).
      rewrite int_sub_exact by (unfold int_range, INT_MIN, INT_MAX; lia).
      f_equal. f_equal. lia.
    - assert (Heq : amount r2 = max_capacity r2) by lia.
      subst leftover. rewrite <- Heq.
      replace (amount_stored system - (amount r2 - amount r2))
        with (amount_stored system) by lia.
      f_equal. destruct r2; reflexivity. }
  rewrite Hres in Hrun. cbn [fst snd] in Hrun.
  destruct (Z.eqb_spec leftover 0) as [Hz|_]; [subst leftover; lia|].
  unfold bind at 1.
  rewrite (lift_world_done _ s _ _ Hrun).
  cbn [StatusCode_eqb negb].
  set (w1 := {| heap := _; trace := _ |}).
  set (system' := set_amount_stored system leftover).
  unfold bind at 1.
  assert (Hload : load (ra_resource (produced system')) w1 =
                  Done (set_resource_mutex (set_amount r2 (max_capacity r2))
                          (resource_mutex r2 - 1)) w1).
  { unfold load. subst system'. simpl. rewrite Hp2. subst w1. simpl.
    rewrite lookup_insert_eq. reflexivity. }
  rewrite (lift_world_done _ {| world := w1; queue := queue s |} _ _ Hload).
  unfold bind at 1.
  rewrite (report_run malloc_ok system' _ _ qa) by assumption.
  unfold bind at 1. unfold lift_world at 1, usleep, log, ret.
  cbn [world queue heap trace].
  subst w1 system'. cbn [heap trace produced set_amount_stored amount set_amount
                          set_resource_mutex].
  rewrite <- app_assoc. cbn [app]. rewrite Hp2. reflexivity.
Qed.

(** X3. A cycle of a worker that holds more than the produced resource
    has room for: the conversion is skipped, the resource is filled to
    [max_capacity], the worker keeps the remainder, one event is reported
    with [PRIORITY_LOW], [STATUS_CAPACITY] and the amount [max_capacity],
    and the back-off sleep follows with the semaphore of the resource one
    lower than at entry. *)
Theorem system_run_capacity_failure (hi lo wait : Z) (malloc_ok : bool) (self : ptr)
    (system : System) (s : Machine) (p2 qa : ptr) (r2 : Resource) :
  0 < amount_stored system ->
  int_range (amount_stored system) ->
  ra_resource (produced system) = Some p2 ->
  heap (world s) !! p2 = Some r2 ->
  0 < resource_mutex r2 ->
  resource_inv r2 ->
  int_range (max_capacity r2) ->
  max_capacity r2 - amount r2 < amount_stored system ->
  event_queue system = Some qa ->
  0 < eventQueue_mutex (queue s) ->
  let leftover := amount_stored system - (max_capacity r2 - amount r2) in
  let event :=
    event_init (Some self) (Some p2) STATUS_CAPACITY lo (max_capacity r2) in
  system_run hi lo wait malloc_ok self system s =
    Done (set_amount_stored system leftover)
      {| world :=
           {| heap := <[p2 := set_resource_mutex
                                (set_amount r2 (max_capacity r2))
                                (resource_mutex r2 - 1)]> (heap (world s));
              trace := trace (world s) ++
                [SemWait p2; USleep (to_useconds (int_mul wait 1000))] |};
         queue := if malloc_ok
                  then {| head := insert_node (head (queue s)) event;
                          size := int_add (size (queue s)) 1;
                          eventQueue_mutex := eventQueue_mutex (queue s) |}
                  else queue s |}.
Proof.
  intros Hpos Hir Hp2 Hr2 Hm2 Hinv Hmax Hfull Hq Hqm.
  apply (system_run_capacity_failure_run hi lo wait malloc_ok self system s p2 qa r2);
    assumption.
Qed.

(** X4. A worker whose [produced.resource] is [NULL] only consumes: a
    cycle that can consume takes [consumed.amount], sleeps the processing
    time, stores nothing, reports nothing and leaves the worker with
    nothing stored. *)
Theorem system_run_consumer_only (hi lo wait : Z) (malloc_ok : bool) (self : ptr)
    (system : System) (s : Machine) (p1 : ptr) (r1 : Resource) :
  amount_stored system = 0 ->
  ra_resource (consumed system) = Some p1 ->
  ra_resource (produced system) = None ->
  heap (world s) !! p1 = Some r1 ->
  0 < resource_mutex r1 ->
  0 <= ra_amount (consumed system) <= amount r1 ->
  int_range (amount r1) ->
  system_run hi lo wait malloc_ok self system s =
    Done system
      {| world :=
           {| heap := <[p1 := set_amount r1 (amount r1 - ra_amount (consumed system))]>
                        (heap (world s));
              trace := trace (world s) ++
                [SemWait p1;
                 USleep (to_useconds (int_mul (adjusted_processing_time system) 1000));
                 SemPost p1] |};
         queue := queue s |}.
Proof.
  intros H0 Hp1 Hp2 Hr1 Hm1 Hreq Hir1.
  unfold int_range, INT_MIN, INT_MAX in *.
  unfold system_run. rewrite H0. cbn [Z.eqb].
  unfold bind at 1. unfold bind at 1.
  rewrite (lift_world_done _ _ _ _ (system_convert_run system (world s) p1 r1 Hp1 Hr1 Hm1)).
  unfold try_consume.
  destruct (Z.geb_spec (amount r1) (ra_amount (consumed system))) as [_|Hlt]; [|lia].
  cbn [fst snd StatusCode_eqb negb ret].
  unfold convert_system, convert_trace. cbn [StatusCode_eqb]. rewrite Hp2.
  rewrite int_sub_exact by (unfold int_range, INT_MIN, INT_MAX; lia).
  cbn [amount_stored set_amount_stored Z.gtb Z.compare].
  rewrite <- H0 at 1. rewrite set_amount_stored_same. reflexivity.
Qed.

(** ** What a cycle leaves alone *)

Lemma returns_ret {S A} (Q : A -> Prop) (a : A) : Q a -> returns Q (@ret S A a).
Proof. intros Ha s b s' [= <- _]. exact Ha. Qed.

Lemma returns_bind {S A B} (P : A -> Prop) (Q : B -> Prop) (m : M S A) (k : A -> M S B) :
  returns P m -> (forall a, P a -> returns Q (k a)) -> returns Q (bind m k).
Proof.
  intros Hm Hk s b s'. unfold bind.
  destruct (m s) as [a s1|s1|] eqn:Hms; try discriminate.
  intros Hrun. exact (Hk a (Hm s a s1 Hms) s1 b s' Hrun).
Qed.

Lemma returns_any {S A} (m : M S A) : returns (fun _ => True) m.
Proof. intros s a s' _. exact I. Qed.

Lemma returns_lift_world {A} (Q : A -> Prop) (m : M World A) :
  returns Q m -> returns Q (lift_world m).
Proof.
  intros Hm s a s'. unfold lift_world.
  destruct (m (world s)) as [b w|w|] eqn:Hms; try discriminate.
  intros [= <- _]. exact (Hm _ _ _ Hms).
Qed.

Lemma same_configuration_refl (a : System) : same_configuration a a.
Proof. unfold same_configuration. symmetry. apply set_amount_stored_same. Qed.

Lemma same_configuration_set (a : System) (n : Z) :
  same_configuration a (set_amount_stored a n).
Proof. reflexivity. Qed.

Lemma same_configuration_trans (a b c : System) :
  same_configuration a b -> same_configuration b c -> same_configuration a c.
Proof. unfold same_configuration. intros -> ->. reflexivity. Qed.

Lemma system_convert_configuration (system : System) :
  returns (fun res => same_configuration system (fst res)) (system_convert system).
Proof.
  intros w [system' st] w' Hrun. cbn [fst].
  destruct (ra_resource (consumed system)) as [p|] eqn:Hp.
  - destruct (heap w !! p) as [r|] eqn:Hr.
    + destruct (Z.lt_ge_cases 0 (resource_mutex r)) as [Hm|Hm].
      * rewrite (system_convert_run system w p r Hp Hr Hm) in Hrun.
        injection Hrun as <- _ _. unfold convert_system.
        destruct (StatusCode_eqb _ _); [|apply same_configuration_refl].
        destruct (ra_resource (produced system)); apply same_configuration_set.
      * rewrite (system_convert_blocked system w p r Hp Hr) in Hrun by lia.
        discriminate Hrun.
    + unfold system_convert, bind, sem_wait in Hrun. rewrite Hp, Hr in Hrun.
      discriminate Hrun.
  - unfold system_convert, bind, sem_wait in Hrun. rewrite Hp in Hrun.
    discriminate Hrun.
Qed.

Lemma system_store_resources_configuration (system : System) :
  returns (fun res => same_configuration system (fst res))
    (system_store_resources system).
Proof.
  intros w [system' st] w' Hrun. cbn [fst].
  destruct (ra_resource (produced system)) as [p|] eqn:Hp.
  - destruct (heap w !! p) as [r|] eqn:Hr.
    + destruct (Z.lt_ge_cases 0 (resource_mutex r)) as [Hm|Hm].
      * destruct (Z.eq_dec (amount_stored system) 0) as [H0|Hne].
        -- rewrite (system_store_resources_nothing system w p r Hp Hr Hm H0) in Hrun.
           injection Hrun as <- _ _. apply same_configuration_set.
        -- rewrite (system_store_resources_run system w p r Hp Hr Hm Hne) in Hrun.
           cbv zeta in Hrun.
           destruct (snd (try_store r (amount_stored system)) =? 0);
             injection Hrun as <- _ _; apply same_configuration_set.
      * rewrite (system_store_resources_blocked system w p r Hp Hr) in Hrun by lia.
        discriminate Hrun.
    + unfold system_store_resources, bind, sem_wait in Hrun. rewrite Hp, Hr in Hrun.
      discriminate Hrun.
  - unfold system_store_resources, bind, sem_wait in Hrun. rewrite Hp in Hrun.
    discriminate Hrun.
Qed.

(** The tail shared by both failure branches of [system_run]. *)
Lemma report_and_wait_returns (wait : Z) (malloc_ok : bool) (system0 system' : System)
    (event : Resource -> Event) (p : option ptr) :
  same_configuration system0 system' ->
  returns (same_configuration system0)
    (bind (lift_world (load p)) (fun r =>
       bind (report malloc_ok system' (event r)) (fun _ =>
         bind (lift_world (usleep (int_mul wait 1000))) (fun _ => ret system')))).
Proof.
  intros Hc.
  eapply returns_bind; [apply returns_any|intros r _].
  eapply returns_bind; [apply returns_any|intros _ _].
  eapply returns_bind; [apply returns_any|intros _ _].
  apply returns_ret. exact Hc.
Qed.

Lemma system_run_configuration (hi lo wait : Z) (malloc_ok : bool) (self : ptr)
    (system : System) :
  returns (same_configuration system) (system_run hi lo wait malloc_ok self system).
Proof.
  unfold system_run.
  eapply (returns_bind (same_configuration system)).
  - destruct (amount_stored system =? 0);
      [|apply returns_ret, same_configuration_refl].
    eapply returns_bind;
      [apply returns_lift_world, system_convert_configuration|].
    intros [system' st] Hc. cbn [fst] in Hc.
    destruct (negb (StatusCode_eqb st STATUS_OK)).
    + apply (report_and_wait_returns wait malloc_ok system system'
               (fun r => event_init (Some self) (ra_resource (consumed system'))
                           st hi (amount r))). exact Hc.
    + apply returns_ret. exact Hc.
  - intros system1 Hc1.
    destruct (amount_stored system1 >? 0); [|apply returns_ret; exact Hc1].
    eapply returns_bind;
      [apply returns_lift_world, system_store_resources_configuration|].
    intros [system' st] Hc. cbn [fst] in Hc.
    assert (Hc' : same_configuration system system')
      by (eapply same_configuration_trans; eassumption).
    destruct (negb (StatusCode_eqb st STATUS_OK)).
    + apply (report_and_wait_returns wait malloc_ok system system'
               (fun r => event_init (Some self) (ra_resource (produced system'))
                           st lo (amount r))). exact Hc'.
    + apply returns_ret. exact Hc'.
Qed.

Lemma relates_ret {S A} (R : S -> S -> Prop) (a : A) :
  (forall s, R s s) -> relates R (@ret S A a).
Proof. intros Hrefl s. apply Hrefl. Qed.

Lemma relates_bind {S A B} (R : S -> S -> Prop) (P : A -> Prop)
    (m : M S A) (k : A -> M S B) :
  (forall s1 s2 s3, R s1 s2 -> R s2 s3 -> R s1 s3) ->
  relates R m ->
  returns P m ->
  (forall a, P a -> relates R (k a)) ->
  relates R (bind m k).
Proof.
  intros Htrans Hm HP Hk s. unfold bind.
  pose proof (Hm s) as Hs.
  destruct (m s) as [a s1|s1|] eqn:Hms; simpl in *.
  - pose proof (Hk a (HP s a s1 Hms) s1) as Hk1.
    destruct (k a s1); simpl in *; try exact I; eapply Htrans; eassumption.
  - exact Hs.
  - exact I.
Qed.

Lemma touches_only_refl (ps : list (option ptr)) (w : World) : touches_only ps w w.
Proof.
  intros p. destruct (heap w !! p); [|exact I]. repeat split.
Qed.

Lemma touches_only_trans (ps : list (option ptr)) (w1 w2 w3 : World) :
  touches_only ps w1 w2 -> touches_only ps w2 w3 -> touches_only ps w1 w3.
Proof.
  intros H12 H23 p. specialize (H12 p). specialize (H23 p).
  destruct (heap w1 !! p), (heap w2 !! p), (heap w3 !! p); try tauto.
  destruct H12 as (Hn & Hc & He), H23 as (Hn' & Hc' & He').
  split; [congruence|]. split; [congruence|].
  intros Hp. rewrite (He' Hp). apply He. exact Hp.
Qed.

Lemma touches_only_mono (ps ps' : list (option ptr)) (w w' : World) :
  ps ⊆ ps' -> touches_only ps w w' -> touches_only ps' w w'.
Proof.
  intros Hsub H p. specialize (H p).
  destruct (heap w !! p), (heap w' !! p); try tauto.
  destruct H as (Hn & Hc & He). repeat split; try assumption.
  intros Hp. apply He. intros Hin. apply Hp, Hsub, Hin.
Qed.

Lemma touches_only_insert (ps : list (option ptr)) (w : World) (p : ptr)
    (r r' : Resource) (t : list Effect) :
  heap w !! p = Some r ->
  resource_name r' = resource_name r ->
  max_capacity r' = max_capacity r ->
  Some p ∈ ps ->
  touches_only ps w {| heap := <[p := r']> (heap w); trace := t |}.
Proof.
  intros Hr Hn Hc Hin q. simpl.
  destruct (decide (p = q)) as [->|Hne].
  - rewrite lookup_insert_eq, Hr. repeat split; try assumption.
    intros Hq. contradiction.
  - rewrite lookup_insert_ne by exact Hne.
    destruct (heap w !! q); [|exact I]. repeat split.
Qed.

Lemma try_consume_name (r : Resource) (n : Z) :
  resource_name (fst (try_consume r n)) = resource_name r.
Proof. unfold try_consume. destruct (amount r >=? n); reflexivity. Qed.

Lemma try_store_name (r : Resource) (n : Z) :
  resource_name (fst (try_store r n)) = resource_name r.
Proof.
  unfold try_store.
  destruct (_ >=? n); [reflexivity|]. destruct (_ >? 0); reflexivity.
Qed.

Lemma system_convert_touches (system : System) :
  relates (touches_only [ra_resource (consumed system)]) (system_convert system).
Proof.
  intros w.
  destruct (ra_resource (consumed system)) as [p|] eqn:Hp.
  - destruct (heap w !! p) as [r|] eqn:Hr.
    + destruct (Z.lt_ge_cases 0 (resource_mutex r)) as [Hm|Hm].
      * rewrite (system_convert_run system w p r Hp Hr Hm). simpl.
        apply (touches_only_insert _ w p r); [exact Hr | | |].
        -- apply try_consume_name.
        -- apply try_consume_max_capacity.
        -- apply list_elem_of_here.
      * rewrite (system_convert_blocked system w p r Hp Hr) by lia.
        apply touches_only_refl.
    + unfold system_convert, bind, sem_wait. rewrite Hp, Hr. exact I.
  - unfold system_convert, bind, sem_wait. rewrite Hp. exact I.
Qed.

Lemma system_store_resources_touches (system : System) :
  relates (touches_only [ra_resource (produced system)])
    (system_store_resources system).
Proof.
  intros w.
  destruct (ra_resource (produced system)) as [p|] eqn:Hp.
  - destruct (heap w !! p) as [r|] eqn:Hr.
    + destruct (Z.lt_ge_cases 0 (resource_mutex r)) as [Hm|Hm].
      * destruct (Z.eq_dec (amount_stored system) 0) as [H0|Hne].
        -- rewrite (system_store_resources_nothing system w p r Hp Hr Hm H0). simpl.
           apply (touches_only_insert _ w p r);
             [exact Hr | reflexivity | reflexivity | apply list_elem_of_here].
        -- rewrite (system_store_resources_run system w p r Hp Hr Hm Hne).
           cbv zeta.
           destruct (snd (try_store r (amount_stored system)) =? 0); simpl;
             (apply (touches_only_insert _ w p r); [exact Hr | | |]);
             try apply list_elem_of_here;
             try apply try_store_name; try apply try_store_max_capacity.
      * rewrite (system_store_resources_blocked system w p r Hp Hr) by lia.
        apply touches_only_refl.
    + unfold system_store_resources, bind, sem_wait. rewrite Hp, Hr. exact I.
  - unfold system_store_resources, bind, sem_wait. rewrite Hp. exact I.
Qed.

Lemma lift_world_relates {A} (R : World -> World -> Prop) (m : M World A) :
  relates R m -> relates (fun s s' => R (world s) (world s')) (lift_world m).
Proof.
  intros Hm s. unfold lift_world. specialize (Hm (world s)).
  destruct (m (world s)); simpl in *; assumption.
Qed.

Lemma lift_queue_relates {A} (R : World -> World -> Prop) (m : M EventQueue A) :
  (forall w, R w w) ->
  relates (fun s s' => R (world s) (world s')) (lift_queue m).
Proof.
  intros Hrefl s. unfold lift_queue.
  destruct (m (queue s)); simpl; try apply Hrefl. exact I.
Qed.

Lemma load_touches (ps : list (option ptr)) (p : option ptr) :
  relates (touches_only ps) (load p).
Proof.
  intros w. unfold load. destruct p as [a|]; [|exact I].
  destruct (heap w !! a); [apply touches_only_refl | exact I].
Qed.

Lemma usleep_touches (ps : list (option ptr)) (usec : Z) :
  relates (touches_only ps) (usleep usec).
Proof.
  intros w q. simpl. destruct (heap w !! q); [|exact I]. repeat split.
Qed.

Lemma report_touches (ps : list (option ptr)) (malloc_ok : bool)
    (system : System) (event : Event) :
  relates (fun s s' => touches_only ps (world s) (world s'))
    (report malloc_ok system event).
Proof.
  unfold report. destruct (event_queue system).
  - apply (lift_queue_relates (touches_only ps)), touches_only_refl.
  - intros s. exact I.
Qed.

Lemma report_and_wait_touches (ps : list (option ptr)) (wait : Z) (malloc_ok : bool)
    (system' : System) (event : Resource -> Event) (p : option ptr) :
  relates (fun s s' => touches_only ps (world s) (world s'))
    (bind (lift_world (load p)) (fun r =>
       bind (report malloc_ok system' (event r)) (fun _ =>
         bind (lift_world (usleep (int_mul wait 1000))) (fun _ => ret system')))).
Proof.
  assert (Htrans : forall s1 s2 s3 : Machine,
             touches_only ps (world s1) (world s2) ->
             touches_only ps (world s2) (world s3) ->
             touches_only ps (world s1) (world s3))
    by (intros s1 s2 s3; apply touches_only_trans).
  eapply relates_bind; [exact Htrans | | apply returns_any | intros r _].
  { apply (lift_world_relates (touches_only ps)), load_touches. }
  eapply relates_bind; [exact Htrans | | apply returns_any | intros _ _].
  { apply report_touches. }
  eapply relates_bind; [exact Htrans | | apply returns_any | intros _ _].
  { apply (lift_world_relates (touches_only ps)), usleep_touches. }
  apply relates_ret. intros s. apply touches_only_refl.
Qed.

Lemma system_run_touches (hi lo wait : Z) (malloc_ok : bool) (self : ptr)
    (system : System) :
  relates (fun s s' =>
             touches_only [ra_resource (consumed system); ra_resource (produced system)]
               (world s) (world s'))
    (system_run hi lo wait malloc_ok self system).
Proof.
  set (ps := [ra_resource (consumed system); ra_resource (produced system)]).
  assert (Htrans : forall s1 s2 s3 : Machine,
             touches_only ps (world s1) (world s2) ->
             touches_only ps (world s2) (world s3) ->
             touches_only ps (world s1) (world s3))
    by (intros s1 s2 s3; apply touches_only_trans).
  assert (Hrefl : forall s : Machine, touches_only ps (world s) (world s))
    by (intros s; apply touches_only_refl).
  unfold system_run.
  eapply (relates_bind _ (same_configuration system)); [exact Htrans | | |].
  - destruct (amount_stored system =? 0); [|apply relates_ret, Hrefl].
    eapply relates_bind; [exact Htrans | | apply returns_any | ].
    + apply (lift_world_relates (touches_only ps)).
      intros w. pose proof (system_convert_touches system w) as H.
      destruct (system_convert system w); simpl in *; try exact I;
        (eapply touches_only_mono; [|exact H]);
        intros x Hx; apply list_elem_of_singleton in Hx; subst x;
        apply list_elem_of_here.
    + intros [system' st] _.
      destruct (negb (StatusCode_eqb st STATUS_OK)).
      * apply (report_and_wait_touches ps wait malloc_ok system'
                 (fun r => event_init (Some self) (ra_resource (consumed system'))
                             st hi (amount r))).
      * apply relates_ret, Hrefl.
  - destruct (amount_stored system =? 0);
      [|apply returns_ret, same_configuration_refl].
    eapply returns_bind;
      [apply returns_lift_world, system_convert_configuration|].
    intros [system' st] Hc. cbn [fst] in Hc.
    destruct (negb (StatusCode_eqb st STATUS_OK)).
    + apply (report_and_wait_returns wait malloc_ok system system'
               (fun r => event_init (Some self) (ra_resource (consumed system'))
                           st hi (amount r))). exact Hc.
    + apply returns_ret. exact Hc.
  - intros system1 Hc1.
    destruct (amount_stored system1 >? 0); [|apply relates_ret, Hrefl].
    eapply relates_bind; [exact Htrans | | apply returns_any | ].
    + apply (lift_world_relates (touches_only ps)).
      intros w. pose proof (system_store_resources_touches system1 w) as H.
      assert (Hprod : ra_resource (produced system1) = ra_resource (produced system))
        by (rewrite Hc1; reflexivity).
      rewrite Hprod in H.
      destruct (system_store_resources system1 w); simpl in *; try exact I;
        (eapply touches_only_mono; [|exact H]);
        intros x Hx; apply list_elem_of_singleton in Hx; subst x;
        apply list_elem_of_further, list_elem_of_here.
    + intros [system' st] _.
      destruct (negb (StatusCode_eqb st STATUS_OK)).
      * apply (report_and_wait_touches ps wait malloc_ok system'
                 (fun r => event_init (Some self) (ra_resource (produced system'))
                             st lo (amount r))).
      * apply relates_ret, Hrefl.
Qed.

(** ** The [size] counter of the queue *)

Lemma run_ops_size (ops : list QueueOp) :
  forall (q : EventQueue) (out : Event),
    0 < eventQueue_mutex q ->
    INT_MIN + Z.of_nat (length ops) <= size q <= INT_MAX - Z.of_nat (length ops) ->
    exists popped q',
      run_ops ops out q = Done popped q'
      /\ size q' - Z.of_nat (length (head q')) = size q - Z.of_nat (length (head q)).
Proof.
  unfold INT_MIN, INT_MAX.
  induction ops as [|[e|] rest IH]; intros q out Hm Hsz.
  - exists [], q. split; reflexivity.
  - rewrite run_ops_push by exact Hm. cbn [length] in Hsz.
    assert (Hadd : int_add (size q) 1 = size q + 1)
      by (apply int_add_exact; unfold int_range, INT_MIN, INT_MAX; lia).
    rewrite Hadd.
    destruct (IH {| head := insert_node (head q) e; size := size q + 1;
                    eventQueue_mutex := eventQueue_mutex q |} out Hm)
      as (popped & q' & Hrun & Hd); [cbn [size]; lia|].
    exists popped, q'. split; [exact Hrun|]. rewrite Hd. cbn [size head].
    rewrite insert_node_eq, (Permutation_length (insert_after_perm _ _)).
    cbn [length]. lia.
  - cbn [length] in Hsz. destruct (head q) as [|e next] eqn:Hhd.
    + rewrite run_ops_pop_empty by assumption.
      destruct (IH q out Hm) as (popped & q' & Hrun & Hd); [lia|].
      exists popped, q'. split; [exact Hrun|]. rewrite Hd, Hhd. reflexivity.
    + rewrite (run_ops_pop_cons q e next) by assumption.
      assert (Hsub : int_sub (size q) 1 = size q - 1)
        by (apply int_sub_exact; unfold int_range, INT_MIN, INT_MAX; lia).
      rewrite Hsub.
      destruct (IH {| head := next; size := size q - 1;
                      eventQueue_mutex := eventQueue_mutex q |} e Hm)
        as (popped & q' & Hrun & Hd); [cbn [size]; lia|].
      exists (e :: popped), q'. unfold bind. rewrite Hrun.
      split; [reflexivity|]. rewrite Hd. cbn [size head length]. lia.
Qed.

Lemma run_ops_sorted (ops : list QueueOp) :
  forall (q : EventQueue) (out : Event),
    0 < eventQueue_mutex q ->
    priority_sorted (head q) ->
    exists popped q',
      run_ops ops out q = Done popped q'
      /\ eventQueue_mutex q' = eventQueue_mutex q
      /\ priority_sorted (head q').
Proof.
  induction ops as [|[e|] rest IH]; intros q out Hm Hs.
  - exists [], q. repeat split. exact Hs.
  - rewrite run_ops_push by exact Hm.
    apply (IH {| head := insert_node (head q) e; size := int_add (size q) 1;
                 eventQueue_mutex := eventQueue_mutex q |} out Hm).
    cbn [head]. rewrite insert_node_eq. apply insert_after_sorted. exact Hs.
  - destruct (head q) as [|e next] eqn:Hhd.
    + rewrite run_ops_pop_empty by assumption. apply IH; [exact Hm|].
      rewrite Hhd. exact Hs.
    + rewrite (run_ops_pop_cons q e next) by assumption.
      destruct (IH {| head := next; size := int_sub (size q) 1;
                      eventQueue_mutex := eventQueue_mutex q |} e Hm)
        as (popped & q' & Hrun & Hmu & Hs').
      { cbn [head]. unfold priority_sorted in *. inversion Hs; assumption. }
      exists (e :: popped), q'. unfold bind. rewrite Hrun.
      repeat split; assumption.
Qed.

(** ** Creating and destroying *)

Lemma world_eta (w : World) : {| heap := heap w; trace := trace w |} = w.
Proof. destruct w; reflexivity. Qed.

Lemma resource_create_run (p : ptr) (junk : Resource) (malloc_name sem_init_ok : bool)
    (name : string) (amt capacity : Z) (w : World) :
  heap w !! p = None ->
  resource_create (Some p) junk malloc_name sem_init_ok name amt capacity w =
    if malloc_name && sem_init_ok
    then Done (Some p)
           {| heap := <[p := {| resource_name := name; amount := amt;
                                max_capacity := capacity; resource_mutex := 1 |}]>
                        (heap w);
              trace := trace w |}
    else Done None w.
Proof.
  intros Hfresh.
  unfold resource_create, bind, free_resource, load, store, ret.
  destruct malloc_name; cbn [negb andb]; run_heap.
  - destruct sem_init_ok; run_heap.
    + rewrite !insert_insert_eq. reflexivity.
    + rewrite !insert_insert_eq, delete_insert_id by exact Hfresh.
      rewrite world_eta. reflexivity.
  - rewrite delete_insert_id by exact Hfresh.
    rewrite world_eta. reflexivity.
Qed.


Lemma system_create_run (p : ptr) (junk : System) (malloc_name : bool)
    (name : string) (c pr : ResourceAmount) (t : Z) (qp : option ptr)
    (h : gmap ptr System) :
  h !! p = None ->
  system_create (Some p) junk malloc_name name c pr t qp h =
    if malloc_name
    then Done (Some p)
           (<[p := {| system_name := name; consumed := c; produced := pr;
                      processing_time := t; status := STANDARD;
                      amount_stored := 0; event_queue := qp |}]> h)
    else Done None h.
Proof.
  intros Hfresh. unfold system_create, bind, free_system, ret.
  destruct malloc_name; cbn [negb]; rewrite lookup_insert_eq.
  - rewrite insert_insert_eq. reflexivity.
  - rewrite delete_insert_id by exact Hfresh. reflexivity.
Qed.

(** X12. [resource_create] either yields the resource as asked for, with its
    semaphore at 1, or leaves the heap as it was and returns [NULL]; but it
    does not test its first allocation, and stores through [NULL] when
    that one fails. *)
Theorem resource_create_cases (p : ptr) (junk : Resource)
    (malloc_name sem_init_ok : bool) (name : string) (amt capacity : Z) (w : World) :
  heap w !! p = None ->
  resource_create (Some p) junk malloc_name sem_init_ok name amt capacity w =
    (if malloc_name && sem_init_ok
     then Done (Some p)
            {| heap := <[p := {| resource_name := name; amount := amt;
                                 max_capacity := capacity; resource_mutex := 1 |}]>
                         (heap w);
               trace := trace w |}
     else Done None w)
  /\ resource_create None junk malloc_name sem_init_ok name amt capacity w = Fault.
Proof.
  intros Hfresh. split; [apply resource_create_run; exact Hfresh | reflexivity].
Qed.

Lemma resource_create_cases_witness :
  resource_create (Some distance_addr) fuel true false "Distance" 0 5000 sample_world
  = Done None sample_world.
Proof.
  apply (resource_create_cases distance_addr fuel true false "Distance" 0 5000
           sample_world).
  reflexivity.
Defined.

(** X13. A resource that [resource_create] has just made can be consumed
    from at once: the first [system_convert] of a worker that asks for no
    more than the initial amount is not blocked and takes its amount. *)
Theorem resource_create_then_convert (p : ptr) (junk : Resource) (name : string)
    (amt capacity : Z) (w : World) (system : System) :
  heap w !! p = None ->
  ra_resource (consumed system) = Some p ->
  0 <= ra_amount (consumed system) <= amt ->
  int_range amt ->
  exists w1 system' w2,
    resource_create (Some p) junk true true name amt capacity w = Done (Some p) w1
    /\ system_convert system w1 = Done (system', STATUS_OK) w2
    /\ heap w2 !! p =
         Some {| resource_name := name; amount := amt - ra_amount (consumed system);
                 max_capacity := capacity; resource_mutex := 1 |}.
Proof.
  intros Hfresh Hp Hreq Hamt.
  rewrite (resource_create_run p junk true true name amt capacity w Hfresh).
  cbn [andb]. eexists _, _, _. split; [reflexivity|].
  set (r := {| resource_name := name; amount := amt; max_capacity := capacity;
               resource_mutex := 1 |}).
  set (w1 := {| heap := <[p := r]> (heap w); trace := trace w |}).
  assert (Hr : heap w1 !! p = Some r) by apply lookup_insert_eq.
  assert (Hm : 0 < resource_mutex r) by (simpl; lia).
  rewrite (system_convert_run system w1 p r Hp Hr Hm).
  unfold try_consume. cbn [amount r].
  unfold int_range, INT_MIN, INT_MAX in Hamt.
  destruct (Z.geb_spec amt (ra_amount (consumed system))) as [_|Hlt]; [|lia].
  cbn [fst snd]. split; [reflexivity|].
  cbn [heap]. rewrite lookup_insert_eq.
  rewrite int_sub_exact by (unfold int_range, INT_MIN, INT_MAX; lia).
  reflexivity.
Qed.

Lemma resource_create_then_convert_witness :
  exists w1 system' w2,
    resource_create (Some distance_addr) fuel true true "Distance" 7 5000 sample_world
      = Done (Some distance_addr) w1
    /\ system_convert
         {| system_name := "Probe";
            consumed := resource_amount_init (Some distance_addr) 5;
            produced := resource_amount_init None 0;
            processing_time := 1; status := STANDARD; amount_stored := 0;
            event_queue := None |} w1 = Done (system', STATUS_OK) w2
    /\ heap w2 !! distance_addr =
         Some {| resource_name := "Distance"; amount := 7 - 5;
                 max_capacity := 5000; resource_mutex := 1 |}.
Proof.
  apply (resource_create_then_convert distance_addr fuel "Distance" 7 5000 sample_world).
  - reflexivity.
  - reflexivity.
  - simpl. lia.
  - unfold int_range, INT_MIN, INT_MAX. lia.
Defined.


(** X15. [system_create] followed by [system_destroy] gives the heap back:
    the new system starts as [STANDARD] with nothing stored, no other
    system changes, and destroying it restores the heap; when an
    allocation fails the result is [NULL] and the heap is as before. *)
Theorem system_create_destroy (p : ptr) (junk : System) (name : string)
    (c pr : ResourceAmount) (t : Z) (qp : option ptr) (h : gmap ptr System) :
  h !! p = None ->
  (exists h1,
      system_create (Some p) junk true name c pr t qp h = Done (Some p) h1
      /\ h1 !! p = Some {| system_name := name; consumed := c; produced := pr;
                           processing_time := t; status := STANDARD;
                           amount_stored := 0; event_queue := qp |}
      /\ (forall q, q <> p -> h1 !! q = h !! q)
      /\ system_destroy (Some p) h1 = Done tt h)
  /\ system_create (Some p) junk false name c pr t qp h = Done None h
  /\ (forall malloc_name,
        system_create None junk malloc_name name c pr t qp h = Done None h).
Proof.
  intros Hfresh. split; [|split].
  - rewrite (system_create_run p junk true name c pr t qp h Hfresh).
    eexists. split; [reflexivity|]. split; [apply lookup_insert_eq|]. split.
    + intros q Hq. apply lookup_insert_ne. congruence.
    + unfold system_destroy, free_system. rewrite lookup_insert_eq.
      rewrite delete_insert_id by exact Hfresh. reflexivity.
  - apply (system_create_run p junk false name c pr t qp h Hfresh).
  - reflexivity.
Qed.

Lemma system_create_destroy_witness :
  system_create (Some generator_addr) crew_capsule_system false "Generator"
    (resource_amount_init (Some fuel_addr) 5)
    (resource_amount_init (Some energy_addr) 10) 20 (Some queue_addr) ∅
  = Done None ∅.
Proof.
  apply (system_create_destroy generator_addr crew_capsule_system "Generator"
           (resource_amount_init (Some fuel_addr) 5)
           (resource_amount_init (Some energy_addr) 10) 20 (Some queue_addr) ∅).
  reflexivity.
Defined.

(** ** The thread of a worker *)

(** X8. [system_thread] returns only if it reads [TERMINATE] on entry, and
    then without having run a cycle: no cycle writes the status, so a
    worker that is not told to stop from outside loops for ever (or blocks
    or faults in a cycle). *)
Theorem system_thread_returns_on_terminate (hi lo wait : Z) (malloc_ok : bool)
    (fuel : nat) (self : ptr) (system system' : System) (s s' : Machine) :
  system_thread hi lo wait malloc_ok fuel self system s = Done (Some system') s' ->
  status system = TERMINATE /\ system' = system /\ s' = s.
Proof.
  revert system s. induction fuel as [|fuel IH]; intros system s Hrun.
  - discriminate Hrun.
  - cbn [system_thread] in Hrun.
    destruct (status system) eqn:Hst;
      try (unfold bind in Hrun;
           destruct (system_run hi lo wait malloc_ok self system s)
             as [system1 s1| |] eqn:Hcycle; try discriminate Hrun;
           destruct (IH system1 s1 Hrun) as (Hterm & _ & _);
           pose proof (system_run_configuration hi lo wait malloc_ok self system
                         s system1 s1 Hcycle) as Hcfg;
           rewrite Hcfg in Hterm; simpl in Hterm; congruence).
    injection Hrun as <- <-. repeat split.
Qed.

Lemma system_thread_returns_on_terminate_witness :
  status terminated_system = TERMINATE
  /\ terminated_system = terminated_system /\ sample_machine = sample_machine.
Proof.
  apply (system_thread_returns_on_terminate 3 1 100 true 5 generator_addr
           terminated_system terminated_system sample_machine sample_machine).
  reflexivity.
Defined.

(** ** The growable arrays *)

Lemma copy_slots_spec (n : nat) :
  forall (i : nat) (old new : list (option ptr)),
    (i + n <= length old)%nat ->
    (i + n <= length new)%nat ->
    exists new',
      copy_slots n i old new = Some new'
      /\ length new' = length new
      /\ (forall j, (j < i)%nat -> new' !! j = new !! j)
      /\ (forall j, (i <= j < i + n)%nat -> new' !! j = old !! j)
      /\ (forall j, (i + n <= j)%nat -> new' !! j = new !! j).
Proof.
  induction n as [|n IH]; intros i old new Hold Hnew.
  - exists new. cbn. repeat split; try reflexivity. intros j Hj. lia.
  - cbn [copy_slots].
    destruct (lookup_lt_is_Some_2 old i ltac:(lia)) as [x Hx]. rewrite Hx.
    destruct (decide (i < length new)%nat) as [_|Hno]; [|lia].
    destruct (IH (S i) old (<[i := x]> new)) as (new' & Hrun & Hlen & Hlo & Hmid & Hhi).
    { lia. }
    { rewrite length_insert. lia. }
    exists new'. split; [exact Hrun|]. rewrite length_insert in Hlen.
    split; [exact Hlen|]. split; [|split].
    + intros j Hj. rewrite Hlo by lia. apply list_lookup_insert_ne. lia.
    + intros j Hj. destruct (decide (j = i)) as [->|Hne].
      * rewrite Hlo by lia. rewrite list_lookup_insert_eq by lia. symmetry. exact Hx.
      * apply Hmid. lia.
    + intros j Hj. rewrite Hhi by lia. apply list_lookup_insert_ne. lia.
Qed.

Lemma copy_slots_take (n : nat) (old new new' : list (option ptr)) :
  (n <= length old)%nat ->
  (n <= length new)%nat ->
  copy_slots n 0 old new = Some new' ->
  length new' = length new /\ take n new' = take n old.
Proof.
  intros Hold Hnew Hrun.
  destruct (copy_slots_spec n 0 old new) as (new2 & Hrun2 & Hlen & _ & Hmid & _);
    [lia | lia |].
  rewrite Hrun2 in Hrun. injection Hrun as <-.
  split; [exact Hlen|].
  apply list_eq. intros j.
  destruct (decide (j < n)%nat) as [Hj|Hj].
  - rewrite !lookup_take_lt by exact Hj. apply Hmid. lia.
  - rewrite !lookup_take_ge by lia. reflexivity.
Qed.

Lemma fresh_length (junk : nat -> option ptr) (n : nat) :
  length (map junk (seq 0 n)) = n.
Proof. rewrite length_map, length_seq. reflexivity. Qed.

Lemma take_insert_last (buf : list (option ptr)) (n : nat) (x : option ptr) :
  (n < length buf)%nat ->
  take (S n) (<[n := x]> buf) = take n buf ++ [x].
Proof.
  intros Hn.
  rewrite (take_S_r _ n x) by (apply list_lookup_insert_eq; exact Hn).
  rewrite take_insert_ge by lia. reflexivity.
Qed.

(** One call of [system_array_add] with a successful allocation. *)
Lemma array_add_run (junk : nat -> option ptr) (array : PointerArray) (x : ptr) :
  array_wf array ->
  array_capacity array <= 1073741823 ->
  exists array',
    array_add true junk array (Some x) = Some array'
    /\ array_wf array'
    /\ elements array' = elements array ++ [Some x]
    /\ array_size array' = array_size array + 1
    /\ array_capacity array' =
         (if array_size array <? array_capacity array then array_capacity array
          else if array_capacity array =? 0 then 1
          else 2 * array_capacity array).
Proof.
  intros Hwf Hcap. unfold array_wf in Hwf. unfold array_add.
  destruct array as [sl sz cap]. cbn [slots array_size array_capacity] in *.
  cbn [negb].
  destruct (Z.geb_spec sz cap) as [Hfull|Hroom].
  - (* the buffer is full, or missing *)
    assert (Hszcap : sz = cap) by (destruct sl; lia).
    assert (Hcap0 : 0 <= cap) by (destruct sl; lia).
    set (new_capacity := if cap =? 0 then 1 else int_mul cap 2).
    assert (Hnew : new_capacity = if cap =? 0 then 1 else 2 * cap).
    { subst new_capacity. destruct (cap =? 0); [reflexivity|].
      unfold int_mul. rewrite wrap_int_id; [lia|].
      unfold int_range, INT_MIN, INT_MAX. lia. }
    assert (Hlt : sz < new_capacity)
      by (rewrite Hnew; destruct (Z.eqb_spec cap 0); lia).
    set (fresh := map junk (seq 0 (Z.to_nat new_capacity))).
    assert (Hfl : length fresh = Z.to_nat new_capacity) by apply fresh_length.
    assert (Hcopied : exists new,
               match Z.to_nat sz with
               | O => Some fresh
               | S _ as n =>
                   match sl with
                   | Some old => copy_slots n 0 old fresh
                   | None => None
                   end
               end = Some new
               /\ length new = length fresh
               /\ take (Z.to_nat sz) new = elements {| slots := sl; array_size := sz;
                                                       array_capacity := cap |}).
    { unfold elements. cbn [slots array_size].
      destruct (Z.to_nat sz) as [|k] eqn:Hk.
      - exists fresh. split; [reflexivity|]. split; [reflexivity|].
        rewrite !take_0. destruct sl; reflexivity.
      - destruct sl as [old|]; [|lia].
        destruct (copy_slots_spec (S k) 0 old fresh) as (new & Hrun & _);
          [lia | lia |].
        exists new. split; [exact Hrun|].
        apply (copy_slots_take (S k) old fresh new); [lia | lia | exact Hrun]. }
    destruct Hcopied as (new & -> & Hlen & Htake).
    cbn [slots array_size array_capacity].
    destruct (Z.leb_spec 0 sz) as [_|Hneg]; [|lia].
    destruct (Z.ltb_spec sz (Z.of_nat (length new))) as [_|Hno]; [|lia].
    cbn [andb]. eexists. split; [reflexivity|].
    assert (Hadd : int_add sz 1 = sz + 1)
      by (apply int_add_exact; unfold int_range, INT_MIN, INT_MAX; lia).
    rewrite Hadd. unfold array_wf, elements.
    cbn [slots array_size array_capacity].
    split; [|split; [|split]].
    + rewrite length_insert. lia.
    + replace (Z.to_nat (sz + 1)) with (S (Z.to_nat sz)) by lia.
      rewrite take_insert_last by lia. rewrite Htake. reflexivity.
    + reflexivity.
    + destruct (Z.ltb_spec sz cap); [lia|]. exact Hnew.
  - (* there is room *)
    destruct sl as [buf|]; [|lia].
    cbn [slots array_size array_capacity].
    destruct (Z.leb_spec 0 sz) as [_|Hneg]; [|lia].
    destruct (Z.ltb_spec sz (Z.of_nat (length buf))) as [_|Hno]; [|lia].
    cbn [andb]. eexists. split; [reflexivity|].
    assert (Hadd : int_add sz 1 = sz + 1)
      by (apply int_add_exact; unfold int_range, INT_MIN, INT_MAX; lia).
    rewrite Hadd. unfold array_wf, elements.
    cbn [slots array_size array_capacity].
    split; [|split; [|split]].
    + rewrite length_insert. lia.
    + replace (Z.to_nat (sz + 1)) with (S (Z.to_nat sz)) by lia.
      rewrite take_insert_last by lia. reflexivity.
    + reflexivity.
    + destruct (Z.ltb_spec sz cap); [reflexivity|lia].
Qed.

Lemma add_all_run (junk : nat -> option ptr) (items : list ptr) :
  forall array,
    array_wf array ->
    array_tight array ->
    array_size array + Z.of_nat (length items) <= 536870912 ->
    exists array',
      add_all junk array items = Some array'
      /\ array_wf array'
      /\ array_tight array'
      /\ elements array' = elements array ++ map Some items
      /\ array_size array' = array_size array + Z.of_nat (length items).
Proof.
  induction items as [|x rest IH]; intros array Hwf Htight Hlen.
  - exists array. cbn. rewrite app_nil_r. repeat split; try assumption. lia.
  - cbn [add_all length] in *.
    assert (Hsz0 : 0 <= array_size array).
    { unfold array_wf in Hwf. destruct (slots array); lia. }
    assert (Hcap : array_capacity array <= 1073741823)
      by (unfold array_tight in Htight; lia).
    destruct (array_add_run junk array x Hwf Hcap)
      as (a1 & Hrun & Hwf1 & Hel1 & Hsz1 & Hcap1).
    rewrite Hrun.
    assert (Htight1 : array_tight a1).
    { unfold array_tight in *. rewrite Hsz1, Hcap1.
      assert (Hle : array_size array <= array_capacity array)
        by (unfold array_wf in Hwf; destruct (slots array); lia).
      destruct (Z.ltb_spec (array_size array) (array_capacity array)); [lia|].
      destruct (Z.eqb_spec (array_capacity array) 0); lia. }
    destruct (IH a1 Hwf1 Htight1) as (a2 & Hrun2 & Hwf2 & Htight2 & Hel2 & Hsz2);
      [lia|].
    exists a2. split; [exact Hrun2|]. split; [exact Hwf2|]. split; [exact Htight2|].
    split.
    + rewrite Hel2, Hel1, <- app_assoc. reflexivity.
    + lia.
Qed.

Lemma destroy_slots_missing (ps : list ptr) :
  forall (i : nat) (buf : list (option ptr)) (h : gmap ptr System),
    (forall k p, ps !! k = Some p -> buf !! (i + k)%nat = Some (Some p)) ->
    (exists q, q ∈ ps /\ h !! q = None) ->
    destroy_slots system_destroy (length ps) i buf h = Fault.
Proof.
  induction ps as [|p rest IH]; intros i buf h Hbuf (q & Hq & Hnone).
  - apply elem_of_nil in Hq. contradiction.
  - cbn [length destroy_slots].
    pose proof (Hbuf 0%nat p eq_refl) as H0. rewrite Nat.add_0_r in H0. rewrite H0.
    unfold bind, system_destroy, free_system.
    destruct (h !! p) as [sp|] eqn:Hp; [|reflexivity].
    apply IH.
    + intros k x Hk. replace (S i + k)%nat with (i + S k)%nat by lia.
      apply Hbuf. exact Hk.
    + exists q. apply elem_of_cons in Hq as [->|Hq]; [congruence|].
      split; [exact Hq|].
      destruct (decide (p = q)) as [->|Hne];
        [apply lookup_delete_eq | rewrite lookup_delete_ne by exact Hne; exact Hnone].
Qed.

Lemma destroy_slots_all (ps : list ptr) :
  forall (i : nat) (buf : list (option ptr)) (h : gmap ptr System),
    (forall k p, ps !! k = Some p -> buf !! (i + k)%nat = Some (Some p)) ->
    NoDup ps ->
    (forall p, p ∈ ps -> is_Some (h !! p)) ->
    exists h',
      destroy_slots system_destroy (length ps) i buf h = Done tt h'
      /\ forall q, h' !! q = if decide (q ∈ ps) then None else h !! q.
Proof.
  induction ps as [|p rest IH]; intros i buf h Hbuf Hnd Hall.
  - exists h. split; [reflexivity|]. intros q.
    destruct (decide (q ∈ [])) as [Hq|_]; [|reflexivity].
    apply elem_of_nil in Hq. contradiction.
  - cbn [length destroy_slots].
    pose proof (Hbuf 0%nat p eq_refl) as H0. rewrite Nat.add_0_r in H0. rewrite H0.
    unfold bind, system_destroy, free_system.
    destruct (Hall p (list_elem_of_here _ _)) as [sp Hp]. rewrite Hp.
    apply NoDup_cons in Hnd as [Hnotin Hnd].
    destruct (IH (S i) buf (delete p h)) as (h' & Hrun & Hh').
    + intros k x Hk. replace (S i + k)%nat with (i + S k)%nat by lia.
      apply Hbuf. exact Hk.
    + exact Hnd.
    + intros x Hx. rewrite lookup_delete_ne by (intros ->; contradiction).
      apply Hall. apply list_elem_of_further. exact Hx.
    + exists h'. split; [exact Hrun|]. intros q. rewrite Hh'.
      destruct (decide (q ∈ rest)) as [Hin|Hout].
      * destruct (decide (q ∈ p :: rest)) as [_|Hno]; [reflexivity|].
        exfalso. apply Hno, list_elem_of_further, Hin.
      * destruct (decide (q = p)) as [->|Hne].
        -- rewrite lookup_delete_eq.
           destruct (decide (p ∈ p :: rest)) as [_|Hno]; [reflexivity|].
           exfalso. apply Hno, list_elem_of_here.
        -- rewrite lookup_delete_ne by congruence.
           destruct (decide (q ∈ p :: rest)) as [Hin|_]; [|reflexivity].
           apply elem_of_cons in Hin as [->|Hin]; contradiction.
Qed.

Lemma destroy_slots_twice (ps : list ptr) :
  forall (i : nat) (buf : list (option ptr)) (h : gmap ptr System),
    (forall k p, ps !! k = Some p -> buf !! (i + k)%nat = Some (Some p)) ->
    ~ NoDup ps ->
    destroy_slots system_destroy (length ps) i buf h = Fault.
Proof.
  induction ps as [|p rest IH]; intros i buf h Hbuf Hdup.
  - exfalso. apply Hdup. constructor.
  - destruct (decide (p ∈ rest)) as [Hin|Hout].
    + cbn [length destroy_slots].
      pose proof (Hbuf 0%nat p eq_refl) as H0. rewrite Nat.add_0_r in H0. rewrite H0.
      unfold bind, system_destroy at 1, free_system.
      destruct (h !! p) as [sp|]; [|reflexivity].
      apply destroy_slots_missing.
      * intros k x Hk. replace (S i + k)%nat with (i + S k)%nat by lia.
        apply Hbuf. exact Hk.
      * exists p. split; [exact Hin | apply lookup_delete_eq].
    + cbn [length destroy_slots].
      pose proof (Hbuf 0%nat p eq_refl) as H0. rewrite Nat.add_0_r in H0. rewrite H0.
      unfold bind, system_destroy at 1, free_system.
      destruct (h !! p) as [sp|]; [|reflexivity].
      apply IH.
      * intros k x Hk. replace (S i + k)%nat with (i + S k)%nat by lia.
        apply Hbuf. exact Hk.
      * intros Hnd. apply Hdup. apply NoDup_cons. split; assumption.
Qed.

Lemma elements_slots (array : PointerArray) (buf : list (option ptr)) (ps : list ptr) :
  slots array = Some buf ->
  array_wf array ->
  elements array = map Some ps ->
  length ps = Z.to_nat (array_size array)
  /\ forall k p, ps !! k = Some p -> buf !! (0 + k)%nat = Some (Some p).
Proof.
  intros Hsl Hwf Hel. unfold array_wf, elements in *. rewrite Hsl in *.
  assert (Hlen : length ps = Z.to_nat (array_size array)).
  { apply (f_equal length) in Hel. rewrite length_take, length_map in Hel. lia. }
  split; [exact Hlen|]. intros k p Hk. cbn [Nat.add].
  assert (Hlt : (k < length ps)%nat) by (apply lookup_lt_is_Some; eauto).
  rewrite <- (lookup_take_lt buf (Z.to_nat (array_size array)) k) by lia.
  rewrite Hel. rewrite list_lookup_fmap, Hk. reflexivity.
Qed.

(** ** Instances of the cycle theorems *)

Lemma system_run_success_witness :
  exists s',
    system_run 3 1 100 true generator_addr generator_system initial_machine
      = Done generator_system s'.
Proof.
  eexists.
  apply (system_run_success 3 1 100 true generator_addr generator_system
           initial_machine fuel_addr energy_addr fuel energy).
  - reflexivity.
  - reflexivity.
  - reflexivity.
  - discriminate.
  - reflexivity.
  - reflexivity.
  - simpl. lia.
  - simpl. lia.
  - simpl. lia.
  - unfold int_range, INT_MIN, INT_MAX. simpl. lia.
  - unfold resource_inv. simpl. lia.
  - unfold int_range, INT_MIN, INT_MAX. simpl. lia.
  - simpl. lia.
Defined.

Lemma system_run_consume_failure_witness :
  exists s',
    system_run 3 1 100 true generator_addr greedy_system initial_machine
      = Done greedy_system s'.
Proof.
  eexists.
  apply (system_run_consume_failure 3 1 100 true generator_addr greedy_system
           initial_machine oxygen_addr queue_addr oxygen).
  - reflexivity.
  - reflexivity.
  - reflexivity.
  - simpl. lia.
  - simpl. lia.
  - reflexivity.
  - simpl. lia.
Defined.

Lemma system_run_capacity_failure_witness :
  exists s',
    system_run 3 1 100 true generator_addr (set_amount_stored generator_system 10)
      sample_machine
    = Done (set_amount_stored generator_system 10) s'.
Proof.
  eexists.
  apply (system_run_capacity_failure 3 1 100 true generator_addr
           (set_amount_stored generator_system 10) sample_machine
           energy_addr queue_addr energy_full).
  - simpl. lia.
  - unfold int_range, INT_MIN, INT_MAX. simpl. lia.
  - reflexivity.
  - reflexivity.
  - simpl. lia.
  - unfold resource_inv. simpl. lia.
  - unfold int_range, INT_MIN, INT_MAX. simpl. lia.
  - simpl. lia.
  - reflexivity.
  - simpl. lia.
Defined.

Lemma system_run_consumer_only_witness :
  exists s',
    system_run 3 1 100 true generator_addr crew_capsule_system initial_machine
      = Done crew_capsule_system s'.
Proof.
  eexists.
  apply (system_run_consumer_only 3 1 100 true generator_addr crew_capsule_system
           initial_machine oxygen_addr oxygen).
  - reflexivity.
  - reflexivity.
  - reflexivity.
  - reflexivity.
  - simpl. lia.
  - simpl. lia.
  - unfold int_range, INT_MIN, INT_MAX. simpl. lia.
Defined.

(** X5. A cycle writes no field of the worker other than [amount_stored]:
    the name, the two resource amounts, the processing time, the status
    and the queue of the worker it returns are those it was given. *)
Theorem system_run_keeps_configuration (hi lo wait : Z) (malloc_ok : bool)
    (self : ptr) (system system' : System) (s s' : Machine) :
  system_run hi lo wait malloc_ok self system s = Done system' s' ->
  system_name system' = system_name system
  /\ consumed system' = consumed system
  /\ produced system' = produced system
  /\ processing_time system' = processing_time system
  /\ status system' = status system
  /\ event_queue system' = event_queue system.
Proof.
  intros Hrun.
  pose proof (system_run_configuration hi lo wait malloc_ok self system
                s system' s' Hrun) as Hcfg.
  rewrite Hcfg. repeat split.
Qed.

Lemma system_run_keeps_configuration_witness :
  exists system' s',
    system_run 3 1 100 true generator_addr generator_system initial_machine
      = Done system' s'
    /\ status system' = status generator_system.
Proof.
  eexists _, _. split.
  - vm_compute. reflexivity.
  - eapply (system_run_keeps_configuration 3 1 100 true generator_addr
              generator_system _ initial_machine).
    vm_compute. reflexivity.
Defined.

(** X6. Whatever a cycle does (return or block), it creates and frees no
    resource, changes no name and no capacity, and leaves every resource
    other than [consumed.resource] and [produced.resource] of the worker
    exactly as it was. *)
Theorem system_run_touches_only (hi lo wait : Z) (malloc_ok : bool) (self : ptr)
    (system : System) (s : Machine) :
  outcome_inv
    (fun s' =>
       touches_only [ra_resource (consumed system); ra_resource (produced system)]
         (world s) (world s'))
    (system_run hi lo wait malloc_ok self system s).
Proof. apply system_run_touches. Qed.

(** X7. Whatever a cycle does, if every resource is within its capacity
    before it and [consumed.amount] is not negative, every resource is
    within its capacity after it; [produced.amount] may be anything, since
    the cycle stores only a positive [amount_stored]. *)
Theorem system_run_capacity_invariant (hi lo wait : Z) (malloc_ok : bool)
    (self : ptr) (system : System) (s : Machine) :
  heap_inv (world s) ->
  0 <= ra_amount (consumed system) ->
  outcome_inv (fun s' => heap_inv (world s'))
    (system_run hi lo wait malloc_ok self system s).
Proof.
  intros Hinv Hreq.
  apply (system_run_heap_inv hi lo wait malloc_ok self system Hreq s Hinv).
Qed.

Lemma initial_world_inv : heap_inv initial_world.
Proof.
  intros p r Hr. unfold initial_world in Hr. cbn [heap] in Hr.
  repeat (apply lookup_insert_Some in Hr as [[_ <-]|[_ Hr]];
          [unfold resource_inv, int_range, INT_MIN, INT_MAX; simpl; lia|]).
  rewrite lookup_empty in Hr. discriminate Hr.
Qed.

Lemma system_run_capacity_invariant_witness :
  outcome_inv (fun s' => heap_inv (world s'))
    (system_run 3 1 100 true generator_addr generator_system initial_machine).
Proof.
  apply (system_run_capacity_invariant 3 1 100 true generator_addr
           generator_system initial_machine).
  - exact initial_world_inv.
  - simpl. lia.
Defined.

(** ** The queue under any interleaving *)

(** X9. The [size] counter moves in step with the number of queued events:
    over any sequence of pushes and pops short enough for the counter not
    to overflow, [size] minus the number of events in the chain stays what
    it was (a pop that finds the queue empty does not count down). *)
Theorem queue_size_tracks_events (ops : list QueueOp) (q : EventQueue) (out : Event) :
  0 < eventQueue_mutex q ->
  INT_MIN + Z.of_nat (length ops) <= size q <= INT_MAX - Z.of_nat (length ops) ->
  exists popped q',
    run_ops ops out q = Done popped q'
    /\ size q' - Z.of_nat (length (head q')) = size q - Z.of_nat (length (head q)).
Proof. intros Hm Hsz. apply run_ops_size; assumption. Qed.

Lemma queue_size_tracks_events_witness :
  exists popped q',
    run_ops [OpPop; OpPush (sample_event 1 0); OpPush (sample_event 2 0); OpPop]
      (sample_event 0 0) empty_queue = Done popped q'
    /\ size q' - Z.of_nat (length (head q')) = 0 - 0.
Proof.
  apply (queue_size_tracks_events
           [OpPop; OpPush (sample_event 1 0); OpPush (sample_event 2 0); OpPop]
           empty_queue (sample_event 0 0)).
  - simpl. lia.
  - unfold INT_MIN, INT_MAX. simpl. lia.
Defined.

(** X10. [event_queue_clean] followed by [event_queue_init] gives a queue
    whose counter is exact: whatever the queue held, after any sequence of
    fewer than [2^31] pushes and pops [size] is the number of queued
    events. *)
Theorem clean_then_init_counts (q : EventQueue) (ops : list QueueOp) (out : Event) :
  Z.of_nat (length ops) <= INT_MAX ->
  exists popped q',
    run_ops ops out (event_queue_init (event_queue_clean q)) = Done popped q'
    /\ size q' = Z.of_nat (length (head q')).
Proof.
  intros Hlen.
  destruct (run_ops_size ops (event_queue_init (event_queue_clean q)) out)
    as (popped & q' & Hrun & Hd).
  - simpl. lia.
  - unfold INT_MIN, INT_MAX in *. simpl. lia.
  - exists popped, q'. split; [exact Hrun|]. simpl in Hd. lia.
Qed.

Lemma clean_then_init_counts_witness :
  exists popped q',
    run_ops [OpPush (sample_event 1 0); OpPop; OpPop; OpPush (sample_event 2 0)]
      (sample_event 0 0)
      (event_queue_init
         (event_queue_clean
            {| head := [sample_event 5 5]; size := 7; eventQueue_mutex := 1 |}))
      = Done popped q'
    /\ size q' = Z.of_nat (length (head q')).
Proof.
  apply (clean_then_init_counts
           {| head := [sample_event 5 5]; size := 7; eventQueue_mutex := 1 |}
           [OpPush (sample_event 1 0); OpPop; OpPop; OpPush (sample_event 2 0)]
           (sample_event 0 0)).
  unfold INT_MAX. simpl. lia.
Defined.

(** X11. However pushes and pops are interleaved on a freshly initialised
    queue, the chain stays in non-increasing order of priority, so the
    next pop hands out an event whose priority is at least that of every
    event left in the queue (and returns 0 when there is none). *)
Theorem pop_returns_highest_priority (q0 : EventQueue) (ops : list QueueOp)
    (out out' : Event) :
  exists popped q1,
    run_ops ops out (event_queue_init q0) = Done popped q1
    /\ priority_sorted (head q1)
    /\ match head q1 with
       | [] => event_queue_pop out' q1 = Done (0, out') q1
       | e :: rest =>
           exists q2,
             event_queue_pop out' q1 = Done (1, e) q2
             /\ head q2 = rest
             /\ Forall (fun x => ev_priority x <= ev_priority e) rest
       end.
Proof.
  destruct (run_ops_sorted ops (event_queue_init q0) out)
    as (popped & q1 & Hrun & Hmu & Hs).
  - simpl. lia.
  - constructor.
  - exists popped, q1. split; [exact Hrun|]. split; [exact Hs|].
    assert (Hm : 0 < eventQueue_mutex q1) by (rewrite Hmu; simpl; lia).
    destruct (head q1) as [|e rest] eqn:Hhd.
    + apply event_queue_pop_empty; assumption.
    + eexists. split; [apply event_queue_pop_cons; eassumption|].
      split; [reflexivity|].
      unfold priority_sorted in Hs. inversion Hs as [|? ? _ Hall]; subst.
      eapply Forall_impl; [exact Hall|]. simpl. intros x Hx. lia.
Qed.

(** ** Properties of the growable arrays *)

(** X16. [system_array_add] (and [resource_array_add]) of a non-null
    pointer to a well-formed array of capacity below [2^30], the
    allocation succeeding if one is needed: the pointer is appended after
    the elements already there, which keep their order, [size] grows by
    one, and the capacity stays when there was room and otherwise doubles
    (or becomes 1 from 0); the array stays well formed. *)
Theorem array_add_appends (junk : nat -> option ptr) (array : PointerArray) (x : ptr) :
  array_wf array ->
  array_capacity array <= 1073741823 ->
  exists array',
    system_array_add true junk array (Some x) = Some array'
    /\ resource_array_add true junk array (Some x) = Some array'
    /\ array_wf array'
    /\ elements array' = elements array ++ [Some x]
    /\ array_size array' = array_size array + 1
    /\ array_capacity array' =
         (if array_size array <? array_capacity array then array_capacity array
          else if array_capacity array =? 0 then 1
          else 2 * array_capacity array).
Proof.
  intros Hwf Hcap.
  destruct (array_add_run junk array x Hwf Hcap) as (a' & Hrun & Hrest).
  exists a'. split; [exact Hrun|]. split; [exact Hrun|]. exact Hrest.
Qed.

Lemma array_add_appends_witness :
  exists array',
    system_array_add true sample_junk sample_array (Some 16%positive) = Some array'
    /\ elements array' = [Some 14%positive; Some 15%positive; Some 16%positive]
    /\ array_capacity array' = 4.
Proof.
  destruct (array_add_appends sample_junk sample_array 16%positive)
    as (a' & Hrun & _ & _ & Hel & _ & Hcap).
  - unfold array_wf. simpl. lia.
  - simpl. lia.
  - exists a'. split; [exact Hrun|]. split; [exact Hel | exact Hcap].
Defined.

(** When the array is full and [malloc] fails, the add returns with the
    array as it was; with room no allocation is made; [NULL] is never
    stored. *)
Lemma array_add_malloc_fails (junk : nat -> option ptr) (array : PointerArray)
    (x : ptr) (malloc_ok : bool) :
  (array_size array >= array_capacity array ->
   system_array_add false junk array (Some x) = Some array)
  /\ (array_size array < array_capacity array ->
      system_array_add false junk array (Some x)
      = system_array_add true junk array (Some x))
  /\ system_array_add malloc_ok junk array None = Some array.
Proof.
  unfold system_array_add, array_add. cbn [negb]. split; [|split].
  - intros Hfull.
    destruct (Z.geb_spec (array_size array) (array_capacity array)); [reflexivity|lia].
  - intros Hroom.
    destruct (Z.geb_spec (array_size array) (array_capacity array)); [lia|reflexivity].
  - reflexivity.
Qed.

(** X17. Starting from [system_array_init], whether or not its [calloc]
    succeeded, adding up to [2^29] non-null pointers (allocations
    succeeding) stores exactly those pointers in the order of the calls;
    [size] is their number, the buffer has [capacity] slots, and the
    capacity is at most [max 1 (2 * size - 2)]. *)
Theorem array_init_then_add (junk : nat -> option ptr) (calloc_ok : bool)
    (items : list ptr) :
  Z.of_nat (length items) <= 536870912 ->
  exists array,
    add_all junk (system_array_init calloc_ok) items = Some array
    /\ elements array = map Some items
    /\ array_size array = Z.of_nat (length items)
    /\ array_wf array
    /\ array_capacity array <= Z.max 1 (2 * array_size array - 2).
Proof.
  intros Hlen.
  destruct (add_all_run junk items (array_init calloc_ok))
    as (a & Hrun & Hwf & Htight & Hel & Hsz).
  - unfold array_wf. destruct calloc_ok; simpl; lia.
  - unfold array_tight. destruct calloc_ok; simpl; lia.
  - destruct calloc_ok; simpl; lia.
  - exists a. split; [exact Hrun|].
    split; [|split; [|split; [exact Hwf | exact Htight]]].
    + rewrite Hel. destruct calloc_ok; reflexivity.
    + rewrite Hsz. destruct calloc_ok; simpl; lia.
Qed.

Lemma array_init_then_add_witness :
  exists array,
    add_all sample_junk (system_array_init false) [14%positive; 15%positive; 16%positive]
      = Some array
    /\ elements array = [Some 14%positive; Some 15%positive; Some 16%positive].
Proof.
  destruct (array_init_then_add sample_junk false [14%positive; 15%positive; 16%positive])
    as (a & Hrun & Hel & _).
  - simpl. lia.
  - exists a. split; [exact Hrun | exact Hel].
Defined.

(** X18. An array that [system_array_clean] (or [resource_array_clean])
    has cleaned cannot be added to before it is initialised again: the
    clean leaves [systems = NULL] with [capacity = 1], so the next add
    sees room and stores through [NULL]. *)
Theorem array_add_after_clean {St} (destroy : option ptr -> M St unit)
    (array array' : PointerArray) (s s' : St) (malloc_ok : bool)
    (junk : nat -> option ptr) (x : ptr) :
  slots array <> None ->
  array_clean destroy array s = Done array' s' ->
  array' = {| slots := None; array_size := 0; array_capacity := 1 |}
  /\ array_add malloc_ok junk array' (Some x) = None.
Proof.
  intros Hsl Hrun. unfold array_clean in Hrun.
  destruct (slots array) as [buf|]; [|contradiction].
  unfold bind, ret in Hrun.
  destruct (destroy_slots destroy _ 0 buf s); try discriminate Hrun.
  injection Hrun as <- _. split; reflexivity.
Qed.

Lemma array_add_after_clean_witness :
  array_add true sample_junk
    {| slots := None; array_size := 0; array_capacity := 1 |} (Some 16%positive)
  = None.
Proof.
  refine (proj2 (array_add_after_clean system_destroy sample_array _
                   sample_systems _ true sample_junk 16%positive _ _)).
  - discriminate.
  - vm_compute. reflexivity.
Defined.

(** X19. [system_array_clean] on a well-formed array that holds distinct
    live systems frees exactly those: they are gone from the heap, every
    other system is untouched, and the array is left with no buffer,
    [size = 0] and [capacity = 1]. *)
Theorem system_array_clean_frees (array : PointerArray) (buf : list (option ptr))
    (ps : list ptr) (h : gmap ptr System) :
  slots array = Some buf ->
  array_wf array ->
  elements array = map Some ps ->
  NoDup ps ->
  (forall p, p ∈ ps -> is_Some (h !! p)) ->
  exists h',
    system_array_clean array h =
      Done {| slots := None; array_size := 0; array_capacity := 1 |} h'
    /\ forall q, h' !! q = if decide (q ∈ ps) then None else h !! q.
Proof.
  intros Hsl Hwf Hel Hnd Hall.
  destruct (elements_slots array buf ps Hsl Hwf Hel) as [Hlen Hbuf].
  destruct (destroy_slots_all ps 0 buf h Hbuf Hnd Hall) as (h' & Hrun & Hh').
  exists h'. split; [|exact Hh'].
  unfold system_array_clean, array_clean. rewrite Hsl. unfold bind, ret.
  rewrite <- Hlen, Hrun. reflexivity.
Qed.

Lemma system_array_clean_frees_witness :
  exists h',
    system_array_clean sample_array sample_systems =
      Done {| slots := None; array_size := 0; array_capacity := 1 |} h'
    /\ forall q, h' !! q =
         if decide (q ∈ [14%positive; 15%positive]) then None else sample_systems !! q.
Proof.
  apply (system_array_clean_frees sample_array
           [Some 14%positive; Some 15%positive] [14%positive; 15%positive]
           sample_systems).
  - reflexivity.
  - unfold array_wf. simpl. lia.
  - reflexivity.
  - apply NoDup_cons. split; [|apply NoDup_singleton].
    intros Hin. apply list_elem_of_singleton in Hin. discriminate Hin.
  - intros p Hp. apply elem_of_cons in Hp as [->|Hp]; [vm_compute; eauto|].
    apply elem_of_cons in Hp as [->|Hp]; [vm_compute; eauto|].
    apply elem_of_nil in Hp. contradiction.
Defined.

(** X20. [system_array_add] does not look for the pointer among the
    elements, and [system_array_clean] destroys every slot: on an array
    that holds the same system twice the clean frees it twice, which is an
    invalid access. *)
Theorem system_array_clean_double_free (array : PointerArray)
    (buf : list (option ptr)) (ps : list ptr) (h : gmap ptr System) :
  slots array = Some buf ->
  array_wf array ->
  elements array = map Some ps ->
  ~ NoDup ps ->
  system_array_clean array h = Fault.
Proof.
  intros Hsl Hwf Hel Hdup.
  destruct (elements_slots array buf ps Hsl Hwf Hel) as [Hlen Hbuf].
  unfold system_array_clean, array_clean. rewrite Hsl. unfold bind.
  rewrite <- Hlen, (destroy_slots_twice ps 0 buf h Hbuf Hdup). reflexivity.
Qed.

Lemma system_array_clean_double_free_witness :
  system_array_clean doubled_array sample_systems = Fault.
Proof.
  apply (system_array_clean_double_free doubled_array
           [Some 14%positive; Some 14%positive] [14%positive; 14%positive]
           sample_systems).
  - reflexivity.
  - unfold array_wf. simpl. lia.
  - reflexivity.
  - intros Hnd. apply NoDup_cons in Hnd as [Hnotin _].
    apply Hnotin, list_elem_of_here.
Defined.



(** ** The sleep of a conversion *)

(** X22. For a processing time between 0 and 1073741 ms the conversion
    sleeps exactly 1000 microseconds per millisecond of the adjusted time:
    [2 * t] ms for [SLOW], [t / 2] ms (rounded down) for [FAST] and [t] ms
    otherwise; nothing overflows and no resource is touched. *)
Theorem processing_sleep_microseconds (system : System) (w : World) :
  0 <= processing_time system <= 1073741 ->
  let t := processing_time system in
  let ms := match status system with
            | SLOW => 2 * t
            | FAST => t / 2
            | STANDARD | TERMINATE => t
            end in
  system_simulate_process_time system w =
    Done tt {| heap := heap w; trace := trace w ++ [USleep (1000 * ms)] |}.
Proof.
  intros Ht. cbv zeta. rewrite system_simulate_process_time_run.
  unfold adjusted_processing_time.
  generalize dependent (processing_time system). intros t Ht.
  assert (Hhalf : 0 <= t / 2 <= t).
  { split; [apply Z.div_pos; lia|]. apply Z.div_le_upper_bound; lia. }
  assert (Hms : forall ms, 0 <= ms <= 2147482 ->
            to_useconds (int_mul ms 1000) = 1000 * ms).
  { intros ms Hms. unfold int_mul, to_useconds.
    rewrite wrap_int_id by (unfold int_range, INT_MIN, INT_MAX; lia).
    rewrite Z.mod_small by lia. lia. }
  destruct (status system).
  - rewrite Hms by lia. reflexivity.
  - assert (H2 : int_mul t 2 = 2 * t).
    { unfold int_mul. rewrite wrap_int_id; [lia|].
      unfold int_range, INT_MIN, INT_MAX. lia. }
    rewrite H2, Hms by lia. reflexivity.
  - assert (H2 : int_div t 2 = t / 2).
    { unfold int_div. rewrite Z.quot_div_nonneg by lia.
      apply wrap_int_id. unfold int_range, INT_MIN, INT_MAX. lia. }
    rewrite H2, Hms by lia. reflexivity.
  - rewrite Hms by lia. reflexivity.
Qed.

Lemma processing_sleep_microseconds_witness :
  system_simulate_process_time fast_odd_system initial_world =
    Done tt {| heap := heap initial_world;
               trace := trace initial_world ++ [USleep (1000 * (5 / 2))] |}.
Proof.
  apply (processing_sleep_microseconds fast_odd_system initial_world).
  simpl. lia.
Defined.

(** ** After a capacity failure *)

(** X23. Once a cycle has reported [STATUS_CAPACITY] for a resource whose
    semaphore was at 1, that semaphore stays at 0: the next cycle of the
    same worker blocks before it changes anything, and so does every
    [system_convert] of a worker that consumes that resource. *)
Theorem system_run_blocks_after_capacity_failure (hi lo wait : Z)
    (malloc_ok : bool) (self : ptr) (system other : System) (s : Machine)
    (p2 qa : ptr) (r2 : Resource) :
  0 < amount_stored system ->
  int_range (amount_stored system) ->
  ra_resource (produced system) = Some p2 ->
  heap (world s) !! p2 = Some r2 ->
  resource_mutex r2 = 1 ->
  resource_inv r2 ->
  int_range (max_capacity r2) ->
  max_capacity r2 - amount r2 < amount_stored system ->
  event_queue system = Some qa ->
  0 < eventQueue_mutex (queue s) ->
  ra_resource (consumed other) = Some p2 ->
  exists system' s',
    system_run hi lo wait malloc_ok self system s = Done system' s'
    /\ system_run hi lo wait malloc_ok self system' s' = Blocked s'
    /\ system_convert other (world s') = Blocked (world s').
Proof.
  intros Hpos Hir Hp2 Hr2 Hm2 Hinv Hmax Hfull Hq Hqm Hother.
  assert (Hm : 0 < resource_mutex r2) by lia.
  pose proof (system_run_capacity_failure_run hi lo wait malloc_ok self system s
                p2 qa r2 Hpos Hir Hp2 Hr2 Hm Hinv Hmax Hfull Hq Hqm) as Hrun.
  cbv zeta in Hrun. rewrite Hrun. eexists _, _. split; [reflexivity|].
  set (system' := set_amount_stored system _).
  set (s' := {| world := _; queue := _ |}).
  set (r' := set_resource_mutex (set_amount r2 (max_capacity r2)) (resource_mutex r2 - 1)).
  assert (Hr' : heap (world s') !! p2 = Some r')
    by (subst s'; cbn [world heap]; apply lookup_insert_eq).
  assert (Hm' : resource_mutex r' <= 0) by (subst r'; simpl; lia).
  split.
  - unfold system_run.
    assert (Hleft : 0 < amount_stored system').
    { subst system'. simpl. unfold resource_inv in Hinv. lia. }
    destruct (Z.eqb_spec (amount_stored system') 0) as [H0|_]; [lia|].
    unfold bind at 1. unfold ret at 1.
    destruct (Z.gtb_spec (amount_stored system') 0) as [_|Hle]; [|lia].
    unfold bind at 1. unfold lift_world.
    rewrite (system_store_resources_blocked system' (world s') p2 r' Hp2 Hr' Hm').
    destruct s' as [w' q']. reflexivity.
  - apply (system_convert_blocked other (world s') p2 r' Hother Hr' Hm').
Qed.

Lemma system_run_blocks_after_capacity_failure_witness :
  exists system' s',
    system_run 3 1 100 true generator_addr (set_amount_stored generator_system 10)
      sample_machine = Done system' s'
    /\ system_run 3 1 100 true generator_addr system' s' = Blocked s'
    /\ system_convert life_support_system (world s') = Blocked (world s').
Proof.
  apply (system_run_blocks_after_capacity_failure 3 1 100 true generator_addr
           (set_amount_stored generator_system 10) life_support_system
           sample_machine energy_addr queue_addr energy_full).
  - simpl. lia.
  - unfold int_range, INT_MIN, INT_MAX. simpl. lia.
  - reflexivity.
  - reflexivity.
  - reflexivity.
  - unfold resource_inv. simpl. lia.
  - unfold int_range, INT_MIN, INT_MAX. simpl. lia.
  - simpl. lia.
  - reflexivity.
  - simpl. lia.
  - reflexivity.
Defined.
